(** * koalatype: layout, render state, input machine and scorer

    A shallow embedding of [main.py] of koalatype, an offline terminal typing
    test, and the properties of its core: the greedy line layout
    ([_layout_prompt]), the render-state builder ([_build_rendered_text]),
    the keystroke handling of the session loop ([_curses_main]) and the
    scorer ([_score]).

    Conventions of the embedding.
    - A Python [str] is a list of characters, [str := list ascii]; the
      characters are the code points U+0000 .. U+00FF.
    - Python integers that only count (rows, columns, lengths, indices that
      the code never lets go below zero) are [nat]; an integer the caller
      chooses ([width]) is [Z].
    - A list that the code updates in place is threaded through the
      functions; an index out of range is the outcome [IndexError].
    - The [float] results of the scorer are exact rationals ([Q]): the model
      computes the real-number value that the binary64 operations round.
      [Binary64._score] is the same function on binary64 numbers, evaluated
      on the scenarios to compare. *)

From Stdlib Require Import List Ascii String ZArith QArith Qminmax Lia Bool.
From Stdlib Require Import Floats.PrimFloat Uint63.
From stdpp Require Import base list strings.
Import ListNotations.

Local Open Scope nat_scope.

(** ** Strings *)

Abbreviation str := (list ascii).

(** A string literal. *)
Definition lit (s : string) : str := list_ascii_of_string s.

Definition space : ascii := " "%char.

(** [s.split(sep)] for a one-character separator: every occurrence of the
    separator ends a piece, so the result is never empty and pieces may be
    empty. *)
Fixpoint split_on (sep : ascii) (s : str) : list str :=
  match s with
  | [] => [[]]
  | c :: s' =>
      if Ascii.eqb c sep then [] :: split_on sep s'
      else match split_on sep s' with
           | [] => [[c]]
           | w :: ws => (c :: w) :: ws
           end
  end.

(** [sep.join(pieces)]. *)
Fixpoint join (sep : str) (pieces : list str) : str :=
  match pieces with
  | [] => []
  | [w] => w
  | w :: ws => w ++ sep ++ join sep ws
  end.

(** [str.isspace] on one character of the range U+0000 .. U+00FF: the ASCII
    white space 0x09-0x0D, 0x1C-0x1F, 0x20, and U+0085, U+00A0. *)
Definition isspace (c : ascii) : bool :=
  let n := nat_of_ascii c in
  ((9 <=? n) && (n <=? 13)) || ((28 <=? n) && (n <=? 32))
  || (n =? 133) || (n =? 160).

(** [s.split()]: pieces between runs of white space, none of them empty.
    [cur] is the piece being read, most recent character first. *)
Definition flush (cur : str) : list str :=
  match cur with [] => [] | _ => [rev cur] end.

Fixpoint split_ws_from (cur : str) (s : str) : list str :=
  match s with
  | [] => flush cur
  | c :: s' =>
      if isspace c then flush cur ++ split_ws_from [] s'
      else split_ws_from (c :: cur) s'
  end.

Definition split_ws (s : str) : list str := split_ws_from [] s.

(** ** Layout engine: [_layout_prompt] *)

Abbreviation pos := (nat * nat)%type.

(** The local variables of [_layout_prompt]. *)
Record layout_state := LayoutState {
  lines : list str;
  positions : list pos;
  row : nat;
  col : nat;
  current_line : str
}.

Definition layout_init : layout_state :=
  {| lines := []; positions := []; row := 0; col := 0; current_line := [] |}.

(** [current_line.append(ch); positions.append((row, col)); col += 1]. *)
Definition put_char (st : layout_state) (ch : ascii) : layout_state :=
  {| lines := lines st;
     positions := positions st ++ [(row st, col st)];
     row := row st;
     col := col st + 1;
     current_line := current_line st ++ [ch] |}.

(** The line break taken when the word does not fit. *)
Definition new_line (st : layout_state) : layout_state :=
  {| lines := lines st ++ [current_line st];
     positions := positions st;
     row := row st + 1;
     col := 0;
     current_line := [] |}.

(** One iteration of [for word_idx, word in enumerate(words)]. *)
Definition layout_word (width : Z) (st : layout_state) (word : str)
  : layout_state :=
  let word_len := length word in
  let space_len := if 0 <? col st then 1 else 0 in
  let st1 :=
    if (0 <? col st) && (width <? Z.of_nat (col st + space_len + word_len))%Z
    then new_line st else st in
  let st2 := if 0 <? col st1 then put_char st1 space else st1 in
  fold_left put_char word st2.

Definition layout_loop (width : Z) (words : list str) (st : layout_state)
  : layout_state :=
  fold_left (layout_word width) words st.

Definition nonempty {A} (l : list A) : bool :=
  match l with [] => false | _ => true end.

Definition _layout_prompt (prompt : str) (width : Z) : list str * list pos :=
  let words := split_on space prompt in
  let st := layout_loop width words layout_init in
  let lines' :=
    if nonempty (current_line st) || negb (nonempty (lines st))
    then lines st ++ [current_line st] else lines st in
  (lines', positions st).

(** The state in which the characters of [word] are laid by
    [layout_word]: after the line break, if one is taken. *)
Definition before_word (width : Z) (st : layout_state) (word : str)
  : layout_state :=
  let space_len := if 0 <? col st then 1 else 0 in
  if (0 <? col st) && (width <? Z.of_nat (col st + space_len + length word))%Z
  then new_line st else st.

(** The positions one iteration records: the separating space, if the word
    does not start its line, then one position per character. *)
Definition word_chunk (width : Z) (st : layout_state) (word : str)
  : list pos :=
  let st1 := before_word width st word in
  (if 0 <? col st1 then [(row st1, col st1)] else [])
  ++ map (fun i => (row st1, col st1 + (if 0 <? col st1 then 1 else 0) + i))
       (seq 0 (length word)).

(** The state once the first [j] of the tokens [words] are laid, and the
    positions recorded until then. *)
Definition state_upto (width : Z) (words : list str) (j : nat)
  : layout_state :=
  layout_loop width (take j words) layout_init.

Definition positions_upto (width : Z) (words : list str) (j : nat)
  : list pos :=
  positions (state_upto width words j).

(** Two consecutive recorded positions: one column to the right on the same
    row, or column 0 of the next row. *)
Definition next_pos (p q : pos) : Prop :=
  (q.1 = p.1 /\ q.2 = S p.2) \/ (q.1 = S p.1 /\ q.2 = 0).

(** Lexicographic order on (row, column). *)
Definition pos_lt (p q : pos) : Prop :=
  p.1 < q.1 \/ (p.1 = q.1 /\ p.2 < q.2).

(** The loop invariant of [_layout_prompt] on the recorded positions: the
    first one is (0, 0), each one is followed by its next position, and the
    cursor [(row, col)] is the position next to the last one. *)
Definition chain (ps : list pos) : Prop :=
  (forall p, ps !! 0 = Some p -> p = (0, 0))
  /\ (forall k p q, ps !! k = Some p -> ps !! S k = Some q -> next_pos p q).

Definition cursor_ok (st : layout_state) : Prop :=
  match last (positions st) with
  | None => row st = 0 /\ col st = 0
  | Some p => next_pos p (row st, col st)
  end.

Definition layout_inv (st : layout_state) : Prop :=
  chain (positions st) /\ cursor_ok st.

(** The character that painting the lines puts in a screen cell:
    [stdscr.addstr(base_row + idx, 0, line)] for each line. *)
Definition line_char (prompt_lines : list str) (p : pos) : option ascii :=
  prompt_lines !! p.1 ≫= fun line => line !! p.2.

(** ** Render state builder: [_build_rendered_text] *)

(** [typed_words[w_idx] if w_idx < len(typed_words) else []]. *)
Definition typed_at (typed_words : list str) (w_idx : nat) : str :=
  if w_idx <? length typed_words then default [] (typed_words !! w_idx)
  else [].

(** [max(len(typed_word) - len(word), 0)]. *)
Definition extra_len (typed_word word : str) : nat :=
  Z.to_nat (Z.max (Z.of_nat (length typed_word) - Z.of_nat (length word)) 0).

(** [word + (" " * extra_len)]. *)
Definition rendered_word (typed_word word : str) : str :=
  word ++ repeat space (extra_len typed_word word).

(** The local variables of [_build_rendered_text]. *)
Record build_state := BuildState {
  rendered_words : list str;
  starts : list nat;
  index : nat
}.

Definition build_init : build_state :=
  {| rendered_words := []; starts := []; index := 0 |}.

(** One iteration of [for w_idx, word in enumerate(prompt_words)]. *)
Definition build_word (typed_words : list str) (st : build_state)
    (w_idx : nat) (word : str) : build_state :=
  let starts' := starts st ++ [index st] in
  let typed_word := typed_at typed_words w_idx in
  let rendered := rendered_word typed_word word in
  {| rendered_words := rendered_words st ++ [rendered];
     starts := starts';
     index := index st + (length rendered + 1) |}.

Fixpoint build_loop (typed_words : list str) (w_idx : nat)
    (prompt_words : list str) (st : build_state) : build_state :=
  match prompt_words with
  | [] => st
  | word :: rest =>
      build_loop typed_words (S w_idx) rest
        (build_word typed_words st w_idx word)
  end.

Definition _build_rendered_text (prompt_words typed_words : list str)
  : str * list nat :=
  let st := build_loop typed_words 0 prompt_words build_init in
  (join [space] (rendered_words st), starts st).

(** The token of prompt word [i] in the rendered text, and the offset at
    which it starts when the tokens before it are joined by one space. *)
Definition token (prompt_words typed_words : list str) (i : nat) : str :=
  rendered_word (typed_at typed_words i) (default [] (prompt_words !! i)).

Fixpoint running_length (prompt_words typed_words : list str) (i : nat)
  : nat :=
  match i with
  | 0 => 0
  | S j => running_length prompt_words typed_words j
          + (length (token prompt_words typed_words j) + 1)
  end.

Definition tokens (prompt_words typed_words : list str) : list str :=
  map (token prompt_words typed_words) (seq 0 (length prompt_words)).

(** The offset of piece [i] in [join [space] pieces]. *)
Definition offset (pieces : list str) (i : nat) : nat :=
  sum_list_with (fun w : str => length w + 1) (take i pieces).

(** [max(0, len(typed[i] if i < len(typed) else []) - len(word))]. *)
Definition padding (typed_words : list str) (i : nat) (word : str) : nat :=
  Z.to_nat
    (Z.max 0
       (Z.of_nat (length (default [] (typed_words !! i)))
        - Z.of_nat (length word))).

(** ** Input state machine: the keystroke handling of [_curses_main] *)

(** [typed_words] and [word_index]; a buffer is the list of the characters
    typed for one word. *)
Record state := State {
  typed_words : list str;
  word_index : nat
}.

Definition initial : state := {| typed_words := [[]]; word_index := 0 |}.

(** What [stdscr.get_wch()] returns: an [int] for a function key, a
    one-character [str] otherwise. *)
Inductive key :=
  | KeyInt (code : Z)
  | KeyStr (ch : ascii).

(** The key codes of curses ([curses.KEY_BACKSPACE], [curses.KEY_RESIZE]). *)
Definition KEY_BACKSPACE : Z := 263.
Definition KEY_RESIZE : Z := 410.

(** One turn of [while True]: the time is up ([remaining <= 0]), nothing
    was typed ([curses.error]), or a key was read. *)
Inductive event :=
  | Expired
  | NoInput
  | Input (k : key).

(** How a turn ends: [continue] (or falling off the end of the body),
    [break], or an uncaught [IndexError]. *)
Inductive outcome :=
  | Continue (st : state)
  | Break (st : state)
  | IndexError.

(** [key in (curses.KEY_BACKSPACE, "\b", "\x7f", 127, 8)]. *)
Definition is_backspace (k : key) : bool :=
  match k with
  | KeyInt code => (code =? KEY_BACKSPACE)%Z || (code =? 127)%Z || (code =? 8)%Z
  | KeyStr ch => Ascii.eqb ch "008"%char || Ascii.eqb ch "127"%char
  end.

(** [key == curses.KEY_RESIZE]. *)
Definition is_resize (k : key) : bool :=
  match k with
  | KeyInt code => (code =? KEY_RESIZE)%Z
  | KeyStr _ => false
  end.

(** [key == " "]. *)
Definition is_space (k : key) : bool :=
  match k with
  | KeyInt _ => false
  | KeyStr ch => Ascii.eqb ch space
  end.

(** [str.isprintable] on one character of the range U+0000 .. U+00FF:
    everything but the controls, U+00A0 and U+00AD. *)
Definition isprintable (c : ascii) : bool :=
  let n := nat_of_ascii c in
  ((32 <=? n) && (n <=? 126)) || ((161 <=? n) && (n <=? 172))
  || ((174 <=? n) && (n <=? 255)).

(** The backspace branch. *)
Definition on_backspace (st : state) : outcome :=
  match typed_words st !! word_index st with
  | None => IndexError
  | Some buf =>
      if nonempty buf then
        Continue {| typed_words :=
                      <[word_index st := removelast buf]> (typed_words st);
                    word_index := word_index st |}
      else if 0 <? word_index st then
        Continue {| typed_words := removelast (typed_words st);
                    word_index := word_index st - 1 |}
      else Continue st
  end.

(** The second [if] of the space branch, and its [continue]. *)
Definition advance (prompt_words : list str) (st : state) : outcome :=
  if (Z.of_nat (word_index st) <? Z.of_nat (length prompt_words) - 1)%Z then
    let word_index' := word_index st + 1 in
    Continue {| typed_words :=
                  if length (typed_words st) <=? word_index'
                  then typed_words st ++ [[]] else typed_words st;
                word_index := word_index' |}
  else Continue st.

(** The space branch; a buffer holds one-character strings, so
    ["".join(buffer)] is the buffer itself. *)
Definition on_space (prompt_words : list str) (st : state) : outcome :=
  if (Z.of_nat (word_index st) =? Z.of_nat (length prompt_words) - 1)%Z then
    match typed_words st !! word_index st with
    | None => IndexError
    | Some typed_word =>
        match prompt_words !! word_index st with
        | None => IndexError
        | Some expected_word =>
            if bool_decide (typed_word = expected_word) then Break st
            else advance prompt_words st
        end
    end
  else advance prompt_words st.

(** [typed_words[word_index].append(key)]. *)
Definition on_char (st : state) (ch : ascii) : outcome :=
  match typed_words st !! word_index st with
  | None => IndexError
  | Some buf =>
      Continue {| typed_words := <[word_index st := buf ++ [ch]]> (typed_words st);
                  word_index := word_index st |}
  end.

Definition handle_key (prompt_words : list str) (st : state) (k : key)
  : outcome :=
  if is_backspace k then on_backspace st
  else if is_resize k then Continue st
  else if is_space k then on_space prompt_words st
  else match k with
       | KeyStr ch => if isprintable ch then on_char st ch else Continue st
       | KeyInt _ => Continue st
       end.

(** One turn of the loop, as far as [typed_words] and [word_index] go. *)
Definition frame (prompt_words : list str) (st : state) (ev : event)
  : outcome :=
  match ev with
  | Expired => Break st
  | NoInput => Continue st
  | Input k => handle_key prompt_words st k
  end.

(** The loop over a sequence of turns; it stops at the first [break] or
    exception. *)
Fixpoint run (prompt_words : list str) (evs : list event) (st : state)
  : outcome :=
  match evs with
  | [] => Continue st
  | ev :: evs' =>
      match frame prompt_words st ev with
      | Continue st' => run prompt_words evs' st'
      | o => o
      end
  end.

(** The loop of [_curses_main] from its initial state, as far as
    [typed_words] and [word_index] go. *)
Definition _curses_main (prompt_words : list str) (evs : list event)
  : outcome :=
  run prompt_words evs initial.

(** [len(typed_words) - 1 == word_index] and
    [0 <= word_index < len(prompt_words)]. *)
Definition invariant (prompt_words : list str) (st : state) : Prop :=
  (Z.of_nat (length (typed_words st)) - 1 = Z.of_nat (word_index st))%Z
  /\ (0 <= Z.of_nat (word_index st) < Z.of_nat (length prompt_words))%Z.

Definition outcome_ok (prompt_words : list str) (o : outcome) : Prop :=
  match o with
  | Continue st | Break st => invariant prompt_words st
  | IndexError => False
  end.

(** *** The coordinates of the typed characters *)

(** [usable_width = max(20, width - 2)]. *)
Definition usable_width (width : Z) : Z := Z.max 20 (width - 2).

(** The screen cell in which the turn paints typed character [i] of word
    [w_idx]: [positions[prompt_starts[w_idx] + i]], and none when either
    loop of the painting code breaks first. *)
Definition typed_char_coord (prompt_words typed_words : list str) (width : Z)
    (w_idx i : nat) : option pos :=
  let '(rendered_text, prompt_starts) :=
    _build_rendered_text prompt_words typed_words in
  let '(prompt_lines, positions) := _layout_prompt rendered_text width in
  if length prompt_words <=? w_idx then None
  else
    word_start ← prompt_starts !! w_idx;
    let char_index := word_start + i in
    if length positions <=? char_index then None
    else positions !! char_index.

(** ** Scorer: [_score] *)

(** The dictionary that [_score] returns. *)
Record score_result := ScoreResult {
  accuracy : Q;
  wpm : Q;
  correct : Q;
  total : Q
}.

(** [sum(1 for expected, actual in zip(prompt_words, typed_words)
         if expected == actual)]. *)
Definition correct_count (prompt_words typed_words : list str) : nat :=
  sum_list
    ((fun _ => 1)
       <$> filter (fun p : str * str => p.1 = p.2)
             (zip prompt_words typed_words)).

(** [a / b]; [None] is [ZeroDivisionError]. *)
Definition true_div (a b : Q) : option Q :=
  if Qeq_bool b 0 then None else Some (a / b)%Q.

(** [max(a, b)]: [b] when [b > a], else [a]. *)
Definition py_max (a b : Q) : Q :=
  if Qlt_le_dec a b then b else a.

Definition of_nat (n : nat) : Q := inject_Z (Z.of_nat n).

(** The floor of [minutes], the literal [1e-9]. *)
Definition epsilon : Q := 1 # 1000000000.

Definition _score (prompt typed : str) (elapsed_seconds : Q)
  : option score_result :=
  let prompt_words := split_ws prompt in
  let typed_words := split_ws typed in
  let correct := correct_count prompt_words typed_words in
  let total := Nat.max (length prompt_words) 1 in
  accuracy ← true_div (of_nat correct) (of_nat total);
  elapsed_minutes ← true_div elapsed_seconds 60;
  let minutes := py_max elapsed_minutes epsilon in
  wpm ← true_div (of_nat (length typed_words)) minutes;
  Some {| accuracy := (accuracy * 100)%Q;
          wpm := wpm;
          correct := of_nat correct;
          total := of_nat total |}.

(** The scorer on IEEE binary64 numbers, the [float] of Python, to compare
    the rational results with on concrete inputs. A length is converted as
    Python converts an [int] below 2^53; [max] and the division test are
    those of Python. *)
Module Binary64.

Record score_result := ScoreResult {
  accuracy : float;
  wpm : float;
  correct : float;
  total : float
}.

Definition of_nat (n : nat) : float :=
  PrimFloat.of_uint63 (Uint63.of_Z (Z.of_nat n)).

Definition true_div (a b : float) : option float :=
  if PrimFloat.eqb b 0%float then None else Some (a / b)%float.

Definition py_max (a b : float) : float :=
  if PrimFloat.ltb a b then b else a.

Definition epsilon : float := 0x1.12e0be826d695p-30%float.

Definition _score (prompt typed : str) (elapsed_seconds : float)
  : option score_result :=
  let prompt_words := split_ws prompt in
  let typed_words := split_ws typed in
  let correct := correct_count prompt_words typed_words in
  let total := Nat.max (length prompt_words) 1 in
  accuracy ← true_div (of_nat correct) (of_nat total);
  elapsed_minutes ← true_div elapsed_seconds 60%float;
  let minutes := py_max elapsed_minutes epsilon in
  wpm ← true_div (of_nat (length typed_words)) minutes;
  Some {| accuracy := (accuracy * 100)%float;
          wpm := wpm;
          correct := of_nat correct;
          total := of_nat total |}.

End Binary64.

(** The positions at which both word lists have a word and the two words are
    equal. *)
Definition matching (prompt_words typed_words : list str) (k : nat) : Prop :=
  exists word, prompt_words !! k = Some word /\ typed_words !! k = Some word.

(** The positions, counted from [b], at which the two word lists have the
    same word. *)
Fixpoint matches_from (b : nat) (prompt_words typed_words : list str)
  : list nat :=
  match prompt_words, typed_words with
  | expected :: prompt_words', actual :: typed_words' =>
      (if decide (expected = actual) then [b] else [])
      ++ matches_from (S b) prompt_words' typed_words'
  | _, _ => []
  end.

(** ** The lines of the layout *)

(** The lines that [_layout_prompt] returns for the final state of its
    loop: [if current_line or not lines: lines.append(...)]. *)
Definition output_lines (st : layout_state) : list str :=
  if nonempty (current_line st) || negb (nonempty (lines st))
  then lines st ++ [current_line st] else lines st.

(** The screen cells of lines painted from row [r] on, at column 0, in
    reading order. *)
Fixpoint cells_from (r : nat) (ls : list str) : list pos :=
  match ls with
  | [] => []
  | l :: ls' =>
      map (fun c => (r, c)) (seq 0 (length l)) ++ cells_from (S r) ls'
  end.

Definition cells (ls : list str) : list pos := cells_from 0 ls.

(** What the loop of [_layout_prompt] keeps between its lines, its current
    line and its positions. *)
Definition cells_inv (st : layout_state) : Prop :=
  positions st
  = cells (lines st)
    ++ map (fun c => (row st, c)) (seq 0 (length (current_line st)))
  /\ row st = length (lines st)
  /\ col st = length (current_line st).

(** A line within the width, or made of one token longer than the width. *)
Definition line_ok (width : Z) (words : list str) (line : str) : Prop :=
  (Z.of_nat (length line) <= width)%Z
  \/ (In line words /\ (width < Z.of_nat (length line))%Z).

(** What the loop keeps about the length of its lines. *)
Definition lines_inv (width : Z) (words : list str) (st : layout_state)
  : Prop :=
  Forall (line_ok width words) (lines st)
  /\ line_ok width words (current_line st)
  /\ col st = length (current_line st).

(** ** The session: [_run_curses_test] *)

(** The transcript that [_curses_main] leaves in [result["typed"]]:
    [" ".join("".join(word) for word in typed_words)]. *)
Definition transcript (st : state) : str := join [space] (typed_words st).

(** [_run_curses_test], as far as the typed text goes: the prompt is split
    on single spaces, the loop runs, and the transcript is returned once
    the loop has ended by [break]. [None]: the turns given do not end the
    loop, or a turn raises. *)
Definition _run_curses_test (prompt : str) (evs : list event) : option str :=
  match _curses_main (split_on space prompt) evs with
  | Break st => Some (transcript st)
  | Continue _ | IndexError => None
  end.

(** A character that the loop appends to a buffer when its key is read. *)
Definition typable (c : ascii) : Prop := isprintable c = true /\ c <> space.

(** Every character of every buffer is typable. *)
Definition clean (st : state) : Prop :=
  Forall (Forall typable) (typed_words st).

(** The turns of a user who types a word, and of one who types words, each
    followed by the space key. *)
Definition type_word (word : str) : list event :=
  map (fun c => Input (KeyStr c)) word.

Definition type_words (words : list str) : list event :=
  flat_map (fun word => type_word word ++ [Input (KeyStr space)]) words.

(** The cell that a turn looks up for the cursor:
    [positions[min(prompt_starts[word_index] + len(typed_words[word_index]),
    len(positions) - 1)]], under [word_index < len(prompt_words) and
    positions]. [None] is an [IndexError]; [Some None]: the guard fails
    and the cursor is left where it is. *)
Definition cursor_cell (prompt_words : list str) (st : state) (width : Z)
  : option (option pos) :=
  let '(rendered_text, prompt_starts) :=
    _build_rendered_text prompt_words (typed_words st) in
  let '(prompt_lines, positions) :=
    _layout_prompt rendered_text (usable_width width) in
  if (word_index st <? length prompt_words) && nonempty positions then
    cursor_base ← prompt_starts !! word_index st;
    typed_word ← typed_words st !! word_index st;
    let cursor_offset := length typed_word in
    let cursor_index :=
      Nat.min (cursor_base + cursor_offset) (length positions - 1) in
    cell ← positions !! cursor_index;
    Some (Some cell)
  else Some None.

(** Whether typed character [i] of a word, [ch], is painted with colour
    pair 1 rather than 2: [expected_char = expected_word[i] if i <
    len(expected_word) else None], then [expected_char is not None and ch
    == expected_char]. *)
Definition char_matches (expected_word : str) (i : nat) (ch : ascii) : bool :=
  let expected_char :=
    if i <? length expected_word then expected_word !! i else None in
  match expected_char with
  | Some e => Ascii.eqb ch e
  | None => false
  end.

(** The first token of a line, and the greedy condition on consecutive
    lines: the first token of a line did not fit at the end of the line
    before it, behind a space. *)
Definition first_token (line : str) : str := hd [] (split_on space line).

Definition greedy (width : Z) (ls : list str) : Prop :=
  forall r a b,
    ls !! r = Some a -> ls !! S r = Some b ->
    (width < Z.of_nat (length a + 1 + length (first_token b)))%Z.

Definition greedy_inv (width : Z) (st : layout_state) : Prop :=
  greedy width (lines st ++ [current_line st])
  /\ col st = length (current_line st).

(** ** The prompt generator

    [WordPack] is the frozen dataclass of the source. The generator
    draws with [random.Random(seed).choices(pack.words, k=count)], which
    returns [population[floor(random() * n)]] for each of the [k] draws;
    the index of draw [i] is [pick i] here, and an index out of range (the
    only one there is when the population is empty) raises [IndexError]. *)
Record WordPack := { name : str; description : str; words : list str }.

Inductive exn := ValueError | ChoicesIndexError.

Definition choices (pick : nat -> nat) (population : list str) (k : nat)
  : option (list str) :=
  mapM (fun i => population !! pick i) (seq 0 k).

Definition _generate_prompt (pick : nat -> nat) (pack : WordPack) (count : Z)
  : exn + str :=
  if (count <=? 0)%Z then inl ValueError
  else match choices pick (words pack) (Z.to_nat count) with
       | Some picked => inr (join [space] picked)
       | None => inl ChoicesIndexError
       end.

(** * Properties *)

(** ** Layout engine *)

Example layout_hello :
  _layout_prompt (lit "hello world foo") 10
  = ([lit "hello"; lit "world foo"],
     [(0,0);(0,1);(0,2);(0,3);(0,4);
      (1,0);(1,1);(1,2);(1,3);(1,4);(1,5);(1,6);(1,7);(1,8)]).
Proof. reflexivity. Qed.

(** Laying the characters of one word: the positions appended are the
    word's columns on the current row. *)
Lemma put_chars_spec (word : str) (st : layout_state) :
  let st' := fold_left put_char word st in
  positions st'
  = positions st ++ map (fun i => (row st, col st + i)) (seq 0 (length word))
  /\ row st' = row st
  /\ col st' = col st + length word
  /\ lines st' = lines st
  /\ current_line st' = current_line st ++ word.
Proof.
  revert st. induction word as [|ch word IH]; intros st; simpl.
  - rewrite !app_nil_r. repeat split; lia.
  - destruct (IH (put_char st ch)) as (Hp & Hr & Hc & Hl & Hcl).
    rewrite Hp, Hr, Hc, Hl, Hcl. simpl.
    repeat split; try lia.
    + rewrite <- app_assoc. simpl. do 2 f_equal.
      * f_equal. lia.
      * rewrite <- seq_shift, map_map. apply map_ext. intros i. f_equal. lia.
    + now rewrite <- app_assoc.
Qed.

Section Layout.

Variable width : Z.

Lemma layout_word_positions (st : layout_state) (word : str) :
  positions (layout_word width st word)
  = positions st ++ word_chunk width st word.
Proof.
  unfold layout_word, word_chunk. fold (before_word width st word).
  set (st1 := before_word width st word).
  assert (Hst1 : positions st1 = positions st).
  { unfold st1, before_word. simpl. now destruct (_ && _). }
  destruct (0 <? col st1) eqn:Hc.
  - destruct (put_chars_spec word (put_char st1 space)) as (Hp & _).
    rewrite Hp. simpl. now rewrite Hst1, <- app_assoc.
  - destruct (put_chars_spec word st1) as (Hp & _).
    rewrite Hp, Hst1. simpl. f_equal. apply map_ext. intros i. f_equal. lia.
Qed.

Lemma layout_loop_snoc (words : list str) (word : str) (st : layout_state) :
  layout_loop width (words ++ [word]) st
  = layout_word width (layout_loop width words st) word.
Proof. unfold layout_loop. now rewrite fold_left_app. Qed.

Lemma state_upto_all (words : list str) :
  state_upto width words (length words)
  = layout_loop width words layout_init.
Proof. unfold state_upto. now rewrite firstn_all. Qed.

Lemma state_upto_S (words : list str) (j : nat) (word : str) :
  words !! j = Some word ->
  state_upto width words (S j)
  = layout_word width (state_upto width words j) word.
Proof.
  intros Hj. unfold state_upto.
  now rewrite (take_S_r _ _ _ Hj), layout_loop_snoc.
Qed.

Lemma positions_upto_S (words : list str) (j : nat) (word : str) :
  words !! j = Some word ->
  positions_upto width words (S j)
  = positions_upto width words j
    ++ word_chunk width (state_upto width words j) word.
Proof.
  intros Hj. unfold positions_upto.
  rewrite (state_upto_S _ _ _ Hj). apply layout_word_positions.
Qed.

Lemma state_upto_app (words : list str) (word : str) (j : nat) :
  j <= length words ->
  state_upto width (words ++ [word]) j = state_upto width words j.
Proof. intros Hj. unfold state_upto. now rewrite take_app_le. Qed.

(** Every recorded position was recorded by one iteration: it lies in the
    chunk of some token. *)
Lemma position_owner (words : list str) (k : nat) (p : pos) :
  positions (layout_loop width words layout_init) !! k = Some p ->
  exists j word,
    words !! j = Some word
    /\ length (positions_upto width words j) <= k
       < length (positions_upto width words (S j))
    /\ In p (word_chunk width (state_upto width words j) word).
Proof.
  revert k p. induction words as [|word words IH] using rev_ind; intros k p.
  - simpl. intros H. discriminate.
  - rewrite layout_loop_snoc, layout_word_positions.
    destruct (decide (k < length (positions (layout_loop width words layout_init))))
      as [Hlt | Hge].
    + rewrite lookup_app_l by exact Hlt. intros Hk.
      destruct (IH _ _ Hk) as (j & w & Hj & Hrange & Hin).
      pose proof (lookup_lt_Some _ _ _ Hj) as Hjlen.
      exists j, w. unfold positions_upto in *.
      rewrite !state_upto_app by lia.
      split; [now rewrite lookup_app_l by lia|]. split; assumption.
    + rewrite lookup_app_r by lia. intros Hk.
      exists (length words), word.
      assert (Hw : (words ++ [word]) !! length words = Some word).
      { rewrite lookup_app_r by lia. now rewrite Nat.sub_diag. }
      split; [exact Hw|].
      unfold positions_upto.
      rewrite (state_upto_S _ _ _ Hw), layout_word_positions.
      rewrite !state_upto_app by lia. rewrite state_upto_all.
      apply lookup_lt_Some in Hk as Hlen.
      split; [rewrite length_app; lia|].
      eapply list_elem_of_In, list_elem_of_lookup_2, Hk.
Qed.

(** Every position of a chunk is within the width, unless the word itself
    is longer than the width. *)
Lemma word_chunk_columns (st : layout_state) (word : str) (r c : nat) :
  In (r, c) (word_chunk width st word) ->
  (Z.of_nat c <= width - 1)%Z \/ (width < Z.of_nat (length word))%Z.
Proof.
  unfold word_chunk, before_word.
  destruct (0 <? col st) eqn:Hc; simpl.
  - destruct (width <? _)%Z eqn:Hw; simpl.
    + intros Hin. apply in_map_iff in Hin as (i & Heq & Hi).
      apply in_seq in Hi. inversion Heq; subst. lia.
    + rewrite Hc. simpl. apply Z.ltb_ge in Hw.
      intros [Heq | Hin].
      * inversion Heq; subst. lia.
      * apply in_map_iff in Hin as (i & Heq & Hi).
        apply in_seq in Hi. inversion Heq; subst. lia.
  - rewrite Hc. simpl. apply Nat.ltb_ge in Hc.
    intros Hin. apply in_map_iff in Hin as (i & Heq & Hi).
    apply in_seq in Hi. inversion Heq; subst. lia.
Qed.

(** C8. For every text and every width >= 1, a position that the layout
    records has a column of at most [width - 1], unless it was recorded
    while laying a token that is itself longer than [width]: then it is one
    of the positions appended by the iteration of that token [j], those of
    index [length (positions_upto j) <= k < length (positions_upto (S j))]. *)
Theorem layout_columns_within_width (text : str) (k r c : nat) :
  (1 <= width)%Z ->
  (_layout_prompt text width).2 !! k = Some (r, c) ->
  (Z.of_nat c <= width - 1)%Z
  \/ exists j word,
       split_on space text !! j = Some word
       /\ (width < Z.of_nat (length word))%Z
       /\ length (positions_upto width (split_on space text) j) <= k
          < length (positions_upto width (split_on space text) (S j)).
Proof.
  intros _ Hk. unfold _layout_prompt in Hk. simpl in Hk.
  destruct (position_owner _ _ _ Hk) as (j & word & Hj & Hrange & Hin).
  destruct (word_chunk_columns _ _ _ _ Hin) as [Hfit | Hlong].
  - now left.
  - right. now exists j, word.
Qed.

End Layout.

(** The theorem at the text "ab abcdef" and width 3, for the position of
    index 5, the fourth character of the token "abcdef". *)
Lemma layout_columns_within_width_witness :
  (1 <= 3)%Z
  /\ (_layout_prompt (lit "ab abcdef") 3).2 !! 5 = Some (1, 3)
  /\ ((Z.of_nat 3 <= 3 - 1)%Z
      \/ exists j word,
           split_on space (lit "ab abcdef") !! j = Some word
           /\ (3 < Z.of_nat (length word))%Z
           /\ length (positions_upto 3 (split_on space (lit "ab abcdef")) j)
              <= 5
              < length
                  (positions_upto 3 (split_on space (lit "ab abcdef")) (S j))).
Proof.
  split; [lia|]. split; [reflexivity|].
  apply (layout_columns_within_width 3 (lit "ab abcdef") 5 1 3);
    [lia|reflexivity].
Defined.

(** C1 (the code departs from the claim). The layout records no position
    for the space that a line wrap replaces, so after a wrap [positions] is
    shorter than the text and no longer aligned with it. At the text
    "import return lambda async" and width 20: the text has 26 characters
    and the layout records 25 positions; the character of offset 21, the
    "a" of "async", is painted at row 1, column 0, and [positions[21]] is
    row 1, column 1, the cell of the "s". *)
Theorem layout_positions_misaligned :
  let text := lit "import return lambda async" in
  let prompt_lines := (_layout_prompt text 20).1 in
  let positions := (_layout_prompt text 20).2 in
  length text = 26
  /\ length positions = 25
  /\ prompt_lines = [lit "import return lambda"; lit "async"]
  /\ text !! 21 = Some "a"%char
  /\ line_char prompt_lines (1, 0) = Some "a"%char
  /\ positions !! 21 = Some (1, 1)
  /\ line_char prompt_lines (1, 1) = Some "s"%char.
Proof. repeat split. Qed.

(** *** Texts that fit on one line *)

Lemma join_cons (w : str) (ws : list str) :
  ws <> [] -> join [space] (w :: ws) = w ++ space :: join [space] ws.
Proof. destruct ws; [congruence|reflexivity]. Qed.

Lemma split_on_nonempty (sep : ascii) (s : str) : split_on sep s <> [].
Proof.
  induction s as [|c s IH]; simpl; [discriminate|].
  destruct (Ascii.eqb c sep); [discriminate|].
  destruct (split_on sep s); discriminate.
Qed.

(** Joining the pieces of a split with the separator gives the text back. *)
Lemma join_split_on (s : str) : join [space] (split_on space s) = s.
Proof.
  induction s as [|c s IH]; simpl; [reflexivity|].
  destruct (Ascii.eqb_spec c space) as [->|Hne].
  - pose proof (split_on_nonempty space s) as Hs.
    destruct (split_on space s) as [|w ws]; [congruence|].
    simpl in *. now rewrite IH.
  - destruct (split_on space s) as [|w ws] eqn:Hs.
    + now destruct (split_on_nonempty space s).
    + destruct ws as [|w' ws]; simpl in *; now rewrite <- IH.
Qed.

Lemma split_on_head (s : str) :
  head s <> Some space ->
  s = [] \/ exists c w ws, split_on space s = (c :: w) :: ws.
Proof.
  destruct s as [|c s]; [now left|]. intros Hhead. right. simpl.
  destruct (Ascii.eqb_spec c space) as [->|Hne]; [now destruct Hhead|].
  destruct (split_on space s) as [|w ws] eqn:Hs; eauto.
Qed.

Lemma join_snoc (ws : list str) (w : str) :
  ws <> [] -> join [space] (ws ++ [w]) = join [space] ws ++ space :: w.
Proof.
  induction ws as [|w0 ws IH]; [congruence|]. intros _.
  destruct ws as [|w1 ws]; [reflexivity|].
  change ((w0 :: w1 :: ws) ++ [w]) with (w0 :: (w1 :: ws) ++ [w]).
  rewrite join_cons by (destruct ws; discriminate).
  rewrite IH by discriminate.
  rewrite (join_cons w0 (w1 :: ws)) by discriminate.
  now rewrite <- app_assoc.
Qed.

Lemma map_seq_from {A} (f : nat -> A) (a n : nat) :
  map f (seq a n) = map (fun i => f (a + i)) (seq 0 n).
Proof.
  revert a. induction n as [|n IH]; intros a; simpl; [reflexivity|].
  f_equal; [f_equal; lia|].
  rewrite IH, <- seq_shift, map_map.
  apply map_ext. intros i. f_equal. lia.
Qed.

Section OneLine.

Variable width : Z.

(** When the first token is not empty and the joined tokens fit in the
    width, no line wraps: every character, spaces included, gets the
    position of its offset on row 0. *)
Lemma layout_loop_one_line (w0 : str) (ws : list str) :
  w0 <> [] ->
  (Z.of_nat (length (join [space] (w0 :: ws))) <= width)%Z ->
  let st := layout_loop width (w0 :: ws) layout_init in
  positions st
  = map (fun k => (0, k)) (seq 0 (length (join [space] (w0 :: ws))))
  /\ row st = 0
  /\ col st = length (join [space] (w0 :: ws))
  /\ lines st = []
  /\ current_line st = join [space] (w0 :: ws).
Proof.
  intros Hw0. induction ws as [|w ws IH] using rev_ind; intros Hfit.
  - unfold layout_loop. cbn [fold_left]. unfold layout_word. simpl.
    destruct (put_chars_spec w0 layout_init) as (Hp & Hr & Hc & Hl & Hcl).
    simpl in *. rewrite Hp, Hr, Hc, Hl, Hcl. repeat split.
  - change (w0 :: ws ++ [w]) with ((w0 :: ws) ++ [w]) in *.
    rewrite join_snoc in * by discriminate.
    rewrite layout_loop_snoc.
    assert (HJ : 0 < length (join [space] (w0 :: ws))).
    { destruct w0; [congruence|].
      destruct ws; simpl; rewrite ?length_app; simpl; lia. }
    set (J := join [space] (w0 :: ws)) in *.
    set (st := layout_loop width (w0 :: ws) layout_init) in *.
    rewrite length_app in *. cbn [length] in *.
    destruct IH as (Hp & Hr & Hc & Hl & Hcl); [lia|].
    unfold layout_word.
    assert (Hposb : (0 <? col st) = true) by (apply Nat.ltb_lt; lia).
    rewrite Hposb. cbn [andb].
    destruct (width <? _)%Z eqn:Hwrap; [apply Z.ltb_lt in Hwrap; lia|].
    rewrite Hposb.
    destruct (put_chars_spec w (put_char st space))
      as (Hp' & Hr' & Hc' & Hl' & Hcl').
    rewrite Hp', Hr', Hc', Hl', Hcl'. cbn [put_char positions row col lines current_line].
    rewrite Hp, Hr, Hc, Hl, Hcl. repeat split.
    + rewrite <- app_assoc. cbn [app].
      replace (length J + S (length w)) with (length J + (1 + length w)) by lia.
      rewrite seq_app, map_app. f_equal. cbn [seq map Nat.add]. f_equal.
      rewrite (map_seq_from _ (S (length J))).
      apply map_ext. intros i. f_equal. lia.
    + lia.
    + now rewrite <- app_assoc.
Qed.

(** A text that does not start with a space and fits in the width is laid
    on one line, and its positions are aligned with it. *)
Lemma layout_one_line (text : str) :
  head text <> Some space ->
  (Z.of_nat (length text) <= width)%Z ->
  _layout_prompt text width
  = ([text], map (fun k => (0, k)) (seq 0 (length text))).
Proof.
  intros Hhead Hfit.
  destruct (split_on_head text Hhead) as [-> | (c & w & ws & Hsplit)];
    [reflexivity|].
  pose proof (join_split_on text) as Hjoin. rewrite Hsplit in Hjoin.
  unfold _layout_prompt. rewrite Hsplit.
  destruct (layout_loop_one_line (c :: w) ws) as (Hp & Hr & Hc & Hl & Hcl);
    [discriminate|now rewrite Hjoin|].
  rewrite Hp, Hl, Hcl, Hjoin. simpl.
  destruct text; [discriminate|reflexivity].
Qed.

End OneLine.

(** *** The order of the recorded positions *)

Lemma next_pos_lt (p q : pos) : next_pos p q -> pos_lt p q.
Proof. unfold next_pos, pos_lt. lia. Qed.

Lemma pos_lt_trans (p q r : pos) : pos_lt p q -> pos_lt q r -> pos_lt p r.
Proof. unfold pos_lt. lia. Qed.

Lemma layout_inv_init : layout_inv layout_init.
Proof.
  split; [split|]; simpl.
  - intros p H. discriminate.
  - intros k p q H. discriminate.
  - split; reflexivity.
Qed.

Lemma layout_inv_put_char (st : layout_state) (ch : ascii) :
  layout_inv st -> layout_inv (put_char st ch).
Proof.
  intros [[Hfirst Hnext] Hcur]. unfold cursor_ok in Hcur.
  split; [split|]; simpl.
  - intros p. destruct (positions st) as [|p0 ps] eqn:Hps; simpl.
    + intros [= <-]. destruct Hcur as [-> ->]. reflexivity.
    + intros [= <-]. apply Hfirst. reflexivity.
  - intros k p q Hp Hq.
    destruct (decide (S k < length (positions st))) as [Hlt | Hge].
    + rewrite lookup_app_l in Hp by lia. rewrite lookup_app_l in Hq by lia.
      eauto.
    + apply lookup_lt_Some in Hq as Hlen. rewrite length_app in Hlen.
      simpl in Hlen. assert (Hk : S k = length (positions st)) by lia.
      rewrite lookup_app_l in Hp by lia.
      rewrite lookup_app_r in Hq by lia.
      replace (S k - length (positions st)) with 0 in Hq by lia.
      injection Hq as <-.
      rewrite last_lookup in Hcur.
      replace (pred (length (positions st))) with k in Hcur by lia.
      now rewrite Hp in Hcur.
  - unfold cursor_ok. simpl. rewrite last_snoc. left. simpl. lia.
Qed.

Lemma layout_inv_new_line (st : layout_state) :
  0 < col st -> layout_inv st -> layout_inv (new_line st).
Proof.
  intros Hcol [Hchain Hcur]. split; [exact Hchain|].
  unfold cursor_ok in *. simpl.
  destruct (last (positions st)) as [p|].
  - destruct Hcur as [[Hr Hc] | [Hr Hc]]; simpl in *; [|lia].
    right. simpl. lia.
  - lia.
Qed.

Lemma layout_inv_put_chars (word : str) (st : layout_state) :
  layout_inv st -> layout_inv (fold_left put_char word st).
Proof.
  revert st. induction word as [|ch word IH]; intros st Hst; simpl.
  - exact Hst.
  - apply IH, layout_inv_put_char, Hst.
Qed.

Section LayoutInvariant.

Variable width : Z.

Lemma layout_inv_word (st : layout_state) (word : str) :
  layout_inv st -> layout_inv (layout_word width st word).
Proof.
  intros Hst. unfold layout_word.
  set (st1 := if _ && _ then new_line st else st).
  assert (Hst1 : layout_inv st1).
  { unfold st1. destruct (0 <? col st) eqn:Hc; simpl; [|exact Hst].
    destruct (width <? _)%Z; [|exact Hst].
    apply layout_inv_new_line; [|exact Hst]. now apply Nat.ltb_lt. }
  apply layout_inv_put_chars.
  destruct (0 <? col st1); [apply layout_inv_put_char|]; exact Hst1.
Qed.

Lemma layout_inv_loop (words : list str) (st : layout_state) :
  layout_inv st -> layout_inv (layout_loop width words st).
Proof.
  revert st. induction words as [|word words IH]; intros st Hst; simpl.
  - exact Hst.
  - apply IH, layout_inv_word, Hst.
Qed.

End LayoutInvariant.

(** In a chain, a later position is greater in the order on (row, column). *)
Lemma chain_increasing (ps : list pos) (d i : nat) (p q : pos) :
  chain ps ->
  ps !! i = Some p -> ps !! (i + S d) = Some q -> pos_lt p q.
Proof.
  intros [_ Hnext]. revert q. induction d as [|d IH]; intros q Hp Hq.
  - replace (i + 1) with (S i) in Hq by lia.
    apply next_pos_lt. eauto.
  - replace (i + S (S d)) with (S (i + S d)) in Hq by lia.
    apply lookup_lt_Some in Hq as Hlen.
    destruct (lookup_lt_is_Some_2 ps (i + S d)) as [m Hm]; [lia|].
    apply pos_lt_trans with m; [now apply IH|].
    apply next_pos_lt. eauto.
Qed.

(** C10. For every text and every width >= 1, the recorded positions start
    at (0, 0); each one is followed either by the next column of the same
    row or by column 0 of the next row, so that rows grow by exactly one at
    a line wrap and a new row starts at column 0; and the sequence is
    strictly increasing in the lexicographic order on (row, column). Rows
    and columns are natural numbers: the code starts them at 0 and only
    adds 1 to them or resets the column to 0. *)
Theorem layout_positions_increasing (text : str) (width : Z) :
  (1 <= width)%Z ->
  let ps := (_layout_prompt text width).2 in
  (forall p, ps !! 0 = Some p -> p = (0, 0))
  /\ (forall k p q, ps !! k = Some p -> ps !! S k = Some q -> next_pos p q)
  /\ (forall i j p q,
        i < j -> ps !! i = Some p -> ps !! j = Some q -> pos_lt p q).
Proof.
  intros _ ps.
  assert (Hchain : chain ps).
  { apply (layout_inv_loop width (split_on space text) layout_init),
      layout_inv_init. }
  split; [apply Hchain|]. split; [apply Hchain|].
  intros i j p q Hij Hp Hq.
  apply (chain_increasing ps (j - S i) i); [exact Hchain|exact Hp|].
  now replace (i + S (j - S i)) with j by lia.
Qed.

(** The theorem at the text "hello world foo" and width 10, across the line
    wrap. *)
Lemma layout_positions_increasing_witness :
  (1 <= 10)%Z
  /\ next_pos (0, 4) (1, 0)
  /\ pos_lt (0, 4) (1, 0).
Proof.
  destruct (layout_positions_increasing (lit "hello world foo") 10)
    as (_ & Hnext & Hlt); [lia|].
  split; [lia|]. split.
  - exact (Hnext 4 (0, 4) (1, 0) eq_refl eq_refl).
  - apply (Hlt 4 5 (0, 4) (1, 0)); [lia|reflexivity|reflexivity].
Defined.

(** ** Render state builder *)

Lemma typed_at_lookup (typed_words : list str) (i : nat) :
  typed_at typed_words i = default [] (typed_words !! i).
Proof.
  unfold typed_at. destruct (i <? length typed_words) eqn:Hi; [reflexivity|].
  apply Nat.ltb_ge in Hi. now rewrite lookup_ge_None_2.
Qed.

Lemma extra_len_padding (typed_words : list str) (i : nat) (word : str) :
  extra_len (typed_at typed_words i) word = padding typed_words i word.
Proof.
  unfold extra_len, padding. rewrite typed_at_lookup. f_equal. lia.
Qed.

Lemma token_padding (prompt_words typed_words : list str) (i : nat)
    (word : str) :
  prompt_words !! i = Some word ->
  token prompt_words typed_words i
  = word ++ repeat space (padding typed_words i word).
Proof.
  intros Hi. unfold token, rendered_word. rewrite Hi. simpl.
  now rewrite extra_len_padding.
Qed.

Lemma token_app (prompt_words typed_words : list str) (word : str) (i : nat) :
  i < length prompt_words ->
  token (prompt_words ++ [word]) typed_words i
  = token prompt_words typed_words i.
Proof. intros Hi. unfold token. now rewrite lookup_app_l. Qed.

Lemma running_length_app (prompt_words typed_words : list str) (word : str)
    (i : nat) :
  i <= length prompt_words ->
  running_length (prompt_words ++ [word]) typed_words i
  = running_length prompt_words typed_words i.
Proof.
  induction i as [|i IH]; intros Hi; simpl; [reflexivity|].
  rewrite IH by lia. now rewrite token_app by lia.
Qed.

Lemma build_loop_snoc (typed_words : list str) (ws : list str) (word : str)
    (w_idx : nat) (st : build_state) :
  build_loop typed_words w_idx (ws ++ [word]) st
  = build_word typed_words (build_loop typed_words w_idx ws st)
      (w_idx + length ws) word.
Proof.
  revert w_idx st. induction ws as [|w ws IH]; intros w_idx st; simpl.
  - now rewrite Nat.add_0_r.
  - rewrite IH. f_equal. lia.
Qed.

(** The loop in closed form. *)
Lemma build_loop_closed (prompt_words typed_words : list str) :
  let st := build_loop typed_words 0 prompt_words build_init in
  rendered_words st = tokens prompt_words typed_words
  /\ starts st
     = map (running_length prompt_words typed_words)
         (seq 0 (length prompt_words))
  /\ index st
     = running_length prompt_words typed_words (length prompt_words).
Proof.
  induction prompt_words as [|word ws IH] using rev_ind; simpl.
  - repeat split.
  - destruct IH as (Hr & Hs & Hi).
    rewrite build_loop_snoc. unfold build_word, tokens. simpl.
    rewrite Hr, Hs, Hi, length_app. simpl.
    replace (length ws + 1) with (S (length ws)) by lia.
    rewrite seq_S, !map_app. simpl.
    assert (Htok : token (ws ++ [word]) typed_words (length ws)
                   = rendered_word (typed_at typed_words (length ws)) word).
    { unfold token. rewrite lookup_app_r by lia.
      now rewrite Nat.sub_diag. }
    repeat split.
    + unfold tokens. f_equal; [|now rewrite Htok].
      apply map_ext_in. intros i Hin. apply in_seq in Hin.
      symmetry. apply token_app. lia.
    + f_equal; [|now rewrite running_length_app by lia].
      apply map_ext_in. intros i Hin. apply in_seq in Hin.
      symmetry. apply running_length_app. lia.
    + rewrite running_length_app by lia. now rewrite Htok.
Qed.

Lemma length_tokens (prompt_words typed_words : list str) :
  length (tokens prompt_words typed_words) = length prompt_words.
Proof. unfold tokens. now rewrite length_map, length_seq. Qed.

Lemma tokens_lookup (prompt_words typed_words : list str) (i : nat) :
  i < length prompt_words ->
  tokens prompt_words typed_words !! i
  = Some (token prompt_words typed_words i).
Proof.
  intros Hi. unfold tokens.
  rewrite list_lookup_fmap, lookup_seq_lt by exact Hi. reflexivity.
Qed.

Lemma offset_tokens (prompt_words typed_words : list str) (i : nat) :
  i <= length prompt_words ->
  offset (tokens prompt_words typed_words) i
  = running_length prompt_words typed_words i.
Proof.
  unfold offset. induction i as [|i IH]; intros Hi; simpl.
  - reflexivity.
  - assert (Hlt : i < length prompt_words) by lia.
    rewrite (take_S_r _ _ _ (tokens_lookup _ typed_words i Hlt)).
    rewrite sum_list_with_app, IH by lia. simpl. lia.
Qed.

(** In the joined text, piece [i] starts at its offset, and is followed by
    the end of the text or by one space and the next piece. *)
Lemma join_drop (pieces : list str) (i : nat) (w : str) :
  pieces !! i = Some w ->
  drop (offset pieces i) (join [space] pieces)
  = w ++ (if decide (S i = length pieces) then []
          else space :: drop (offset pieces (S i)) (join [space] pieces)).
Proof.
  revert i. induction pieces as [|w0 ws IH]; intros i Hi; [discriminate|].
  destruct i as [|i]; simpl in Hi.
  - injection Hi as ->. unfold offset at 1. simpl take. simpl sum_list_with.
    rewrite drop_0. destruct ws as [|w1 ws].
    + simpl. now rewrite app_nil_r.
    + rewrite join_cons by discriminate. f_equal.
      destruct (decide _) as [Heq|_]; [simpl in Heq; lia|]. f_equal.
      unfold offset. simpl take. simpl sum_list_with.
      rewrite Nat.add_0_r.
      replace (w ++ space :: join [space] (w1 :: ws))
        with ((w ++ [space]) ++ join [space] (w1 :: ws))
        by now rewrite <- app_assoc.
      rewrite drop_app_ge by (rewrite length_app; simpl; lia).
      rewrite length_app. simpl.
      now replace (length w + 1 - (length w + 1)) with 0 by lia.
  - assert (Hne : ws <> []) by (intros ->; discriminate).
    assert (Hshift : forall n,
      drop (offset (w0 :: ws) (S n)) (join [space] (w0 :: ws))
      = drop (offset ws n) (join [space] ws)).
    { intros n. rewrite join_cons by exact Hne. unfold offset. simpl.
      replace (w0 ++ space :: join [space] ws)
        with ((w0 ++ [space]) ++ join [space] ws)
        by now rewrite <- app_assoc.
      rewrite drop_app_ge by (rewrite length_app; simpl; lia).
      rewrite length_app. simpl. f_equal. lia. }
    rewrite Hshift, (IH _ Hi). f_equal. simpl length.
    destruct (decide (S i = length ws)), (decide (S (S i) = S (length ws)));
      try lia; [reflexivity|].
    now rewrite Hshift.
Qed.

(** C7. For every prompt word list and typed-buffer list, the builder
    returns the tokens joined by single spaces, where the token of word [i]
    is the word followed by exactly
    [max(0, len(typed[i] if i < len(typed) else []) - len(word))] spaces;
    [promptStarts[i]] is the running length accumulated before word [i]
    (the lengths of the tokens before it, each counted with its joining
    space), and it is the offset of the token in the rendered text: the
    text from there on is the token, then the end of the text or one
    joining space and the next token. For the word "cat" typed as "catdog"
    the token is "cat" and three spaces. *)
Theorem build_rendered_text_spec (prompt_words typed_words : list str) :
  let rendered_text := (_build_rendered_text prompt_words typed_words).1 in
  let prompt_starts := (_build_rendered_text prompt_words typed_words).2 in
  rendered_text = join [space] (tokens prompt_words typed_words)
  /\ length prompt_starts = length prompt_words
  /\ (forall i word,
        prompt_words !! i = Some word ->
        let start := running_length prompt_words typed_words i in
        let pad := padding typed_words i word in
        tokens prompt_words typed_words !! i = Some (word ++ repeat space pad)
        /\ prompt_starts !! i = Some start
        /\ drop start rendered_text
           = (word ++ repeat space pad)
             ++ (if decide (S i = length prompt_words) then []
                 else space
                      :: drop (running_length prompt_words typed_words (S i))
                           rendered_text))
  /\ _build_rendered_text [lit "cat"] [lit "catdog"] = (lit "cat   ", [0]).
Proof.
  destruct (build_loop_closed prompt_words typed_words) as (Hr & Hs & _).
  unfold _build_rendered_text. cbn [fst snd]. rewrite Hr, Hs.
  split; [reflexivity|]. split; [now rewrite length_map, length_seq|].
  split; [|reflexivity].
  intros i word Hi. cbv zeta. pose proof (lookup_lt_Some _ _ _ Hi) as Hlt.
  assert (Htok : tokens prompt_words typed_words !! i
                 = Some (word ++ repeat space (padding typed_words i word))).
  { rewrite tokens_lookup by exact Hlt. f_equal. now apply token_padding. }
  split; [exact Htok|]. split.
  - rewrite list_lookup_fmap, lookup_seq_lt by exact Hlt. reflexivity.
  - rewrite <- (offset_tokens _ _ i), <- (offset_tokens _ _ (S i)) by lia.
    rewrite (join_drop _ _ _ Htok), length_tokens. reflexivity.
Qed.

(** The theorem at the prompt "cat dog" with "catdog" typed for "cat". *)
Lemma build_rendered_text_spec_witness :
  tokens [lit "cat"; lit "dog"] [lit "catdog"] !! 0 = Some (lit "cat   ")
  /\ (_build_rendered_text [lit "cat"; lit "dog"] [lit "catdog"]).2 !! 0
     = Some 0
  /\ drop 0 (_build_rendered_text [lit "cat"; lit "dog"] [lit "catdog"]).1
     = lit "cat   " ++ space :: lit "dog".
Proof.
  destruct (build_rendered_text_spec [lit "cat"; lit "dog"] [lit "catdog"])
    as (_ & _ & H & _).
  exact (H 0 (lit "cat") eq_refl).
Defined.

(** ** Input state machine *)

Lemma length_removelast {A} (l : list A) :
  length (removelast l) = length l - 1.
Proof. rewrite removelast_firstn_len, length_take. lia. Qed.

Lemma nonempty_true {A} (l : list A) : nonempty l = true <-> l <> [].
Proof. destruct l; simpl; split; congruence. Qed.

Lemma nonempty_false {A} (l : list A) : nonempty l = false <-> l = [].
Proof. destruct l; simpl; split; congruence. Qed.

(** C5. For every state whose current buffer exists, a backspace key
    removes the last character of the current buffer when the buffer is not
    empty; otherwise, when [word_index > 0], it decrements [word_index] and
    removes the last buffer of [typed_words], which is then one shorter;
    otherwise, at [word_index = 0] with an empty buffer, it leaves the state
    as it is. *)
Theorem backspace_spec (prompt_words : list str) (st : state) (k : key)
    (buf : str) :
  is_backspace k = true ->
  typed_words st !! word_index st = Some buf ->
  (buf <> [] ->
     frame prompt_words st (Input k)
     = Continue {| typed_words :=
                     <[word_index st := removelast buf]> (typed_words st);
                   word_index := word_index st |}
     /\ exists ch, buf = removelast buf ++ [ch])
  /\ (buf = [] -> 0 < word_index st ->
        frame prompt_words st (Input k)
        = Continue {| typed_words := removelast (typed_words st);
                      word_index := word_index st - 1 |}
        /\ length (removelast (typed_words st))
           = length (typed_words st) - 1)
  /\ (buf = [] -> word_index st = 0 ->
        frame prompt_words st (Input k) = Continue st).
Proof.
  intros Hk Hbuf. simpl. unfold handle_key, on_backspace. rewrite Hk, Hbuf.
  split; [|split].
  - intros Hne. split.
    + apply nonempty_true in Hne. now rewrite Hne.
    + exists (List.last buf space). now apply app_removelast_last.
  - intros -> Hpos. split; [|apply length_removelast].
    simpl. apply Nat.ltb_lt in Hpos. now rewrite Hpos.
  - intros -> Hzero. simpl. now rewrite Hzero.
Qed.

(** The theorem at the state reached by typing "ab". *)
Lemma backspace_spec_witness :
  frame [lit "ab"; lit "c"]
    {| typed_words := [lit "ab"]; word_index := 0 |} (Input (KeyStr "127"))
  = Continue {| typed_words := [lit "a"]; word_index := 0 |}.
Proof.
  exact (proj1 (proj1
    (backspace_spec [lit "ab"; lit "c"]
       {| typed_words := [lit "ab"]; word_index := 0 |} (KeyStr "127")
       (lit "ab") eq_refl eq_refl)
    ltac:(discriminate))).
Defined.

Lemma advance_not_last (prompt_words : list str) (st : state) :
  S (word_index st) < length prompt_words ->
  advance prompt_words st
  = Continue {| typed_words :=
                  if length (typed_words st) <=? word_index st + 1
                  then typed_words st ++ [[]] else typed_words st;
                word_index := word_index st + 1 |}.
Proof.
  intros Hlt. unfold advance.
  destruct (_ <? _)%Z eqn:Hc; [reflexivity|]. apply Z.ltb_ge in Hc. lia.
Qed.

Lemma advance_last (prompt_words : list str) (st : state) :
  length prompt_words <= S (word_index st) ->
  advance prompt_words st = Continue st.
Proof.
  intros Hge. unfold advance.
  destruct (_ <? _)%Z eqn:Hc; [|reflexivity]. apply Z.ltb_lt in Hc. lia.
Qed.

(** C3. For every state whose current buffer exists, the space key: at the
    last prompt index with the buffer equal to the expected word, ends the
    loop at once, whatever turns would follow; at the last prompt index
    with a buffer that differs from the expected word, changes nothing;
    before the last prompt index, increments [word_index], and appends an
    empty buffer, which is then the buffer of the new index, when
    [typed_words] has none there. *)
Theorem space_spec (prompt_words : list str) (st : state)
    (typed_word expected_word : str) :
  typed_words st !! word_index st = Some typed_word ->
  prompt_words !! word_index st = Some expected_word ->
  (S (word_index st) = length prompt_words ->
   typed_word = expected_word ->
     frame prompt_words st (Input (KeyStr space)) = Break st
     /\ forall evs,
          run prompt_words (Input (KeyStr space) :: evs) st = Break st)
  /\ (S (word_index st) = length prompt_words ->
      typed_word <> expected_word ->
        frame prompt_words st (Input (KeyStr space)) = Continue st)
  /\ (S (word_index st) < length prompt_words ->
        exists st',
          frame prompt_words st (Input (KeyStr space)) = Continue st'
          /\ word_index st' = S (word_index st)
          /\ (typed_words st !! S (word_index st) = None ->
                typed_words st' = typed_words st ++ [[]]
                /\ typed_words st' !! S (word_index st) = Some [])
          /\ (is_Some (typed_words st !! S (word_index st)) ->
                typed_words st' = typed_words st)).
Proof.
  intros Hbuf Hexp.
  assert (Hframe : frame prompt_words st (Input (KeyStr space))
                   = on_space prompt_words st) by reflexivity.
  rewrite Hframe. unfold on_space. rewrite Hbuf, Hexp.
  split; [|split].
  - intros Hlast ->.
    assert (Hb : on_space prompt_words st = Break st).
    { unfold on_space. rewrite Hbuf, Hexp.
      destruct (_ =? _)%Z eqn:Hc; [|apply Z.eqb_neq in Hc; lia].
      now rewrite bool_decide_eq_true_2. }
    unfold on_space in Hb. rewrite Hbuf, Hexp in Hb.
    split; [exact Hb|]. intros evs. simpl run.
    change (handle_key prompt_words st (KeyStr space))
      with (on_space prompt_words st).
    unfold on_space. rewrite Hbuf, Hexp, Hb. reflexivity.
  - intros Hlast Hne.
    destruct (_ =? _)%Z eqn:Hc; [|apply Z.eqb_neq in Hc; lia].
    rewrite bool_decide_eq_false_2 by exact Hne.
    apply advance_last. lia.
  - intros Hlt.
    destruct (_ =? _)%Z eqn:Hc; [apply Z.eqb_eq in Hc; lia|].
    rewrite advance_not_last by exact Hlt.
    eexists. split; [reflexivity|]. simpl.
    pose proof (lookup_lt_Some _ _ _ Hbuf) as Hlen.
    split; [lia|]. split.
    + intros Hnone. apply lookup_ge_None_1 in Hnone.
      assert (Heq : length (typed_words st) = S (word_index st)) by lia.
      destruct (_ <=? _) eqn:Hle; [|apply Nat.leb_gt in Hle; lia].
      split; [reflexivity|].
      rewrite lookup_app_r by lia. now rewrite Heq, Nat.sub_diag.
    + intros Hsome. apply lookup_lt_is_Some_1 in Hsome.
      destruct (_ <=? _) eqn:Hle; [apply Nat.leb_le in Hle; lia|].
      reflexivity.
Qed.

(** The theorem at the last word of the prompt "ab c", typed as expected. *)
Lemma space_spec_witness :
  run [lit "ab"; lit "c"] [Input (KeyStr space); Input (KeyStr "x")]
    {| typed_words := [lit "ab"; lit "c"]; word_index := 1 |}
  = Break {| typed_words := [lit "ab"; lit "c"]; word_index := 1 |}.
Proof.
  exact (proj2 (proj1
    (space_spec [lit "ab"; lit "c"]
       {| typed_words := [lit "ab"; lit "c"]; word_index := 1 |}
       (lit "c") (lit "c") eq_refl eq_refl)
    eq_refl eq_refl) [Input (KeyStr "x")]).
Defined.

(** *** The invariant of the loop *)

Create HintDb machine.

(** Closes an invariant goal about a state given by its two fields. *)
Ltac invariant_fields :=
  split; simpl;
  rewrite ?length_insert, ?length_removelast, ?length_app; simpl; lia.

Section Machine.

Variable prompt_words : list str.
Hypothesis prompt_nonempty : prompt_words <> [].

Lemma invariant_initial : invariant prompt_words initial.
Proof.
  unfold invariant. simpl.
  destruct prompt_words; [congruence|]. simpl. lia.
Qed.

Lemma invariant_buffer (st : state) :
  invariant prompt_words st ->
  exists buf, typed_words st !! word_index st = Some buf.
Proof.
  intros [Hlen _]. apply lookup_lt_is_Some_2. lia.
Qed.

Lemma invariant_backspace (st : state) :
  invariant prompt_words st -> outcome_ok prompt_words (on_backspace st).
Proof.
  intros Hinv. destruct (invariant_buffer _ Hinv) as [buf Hbuf].
  destruct Hinv as [Hlen Hidx].
  unfold on_backspace. rewrite Hbuf.
  destruct (nonempty buf); [invariant_fields|].
  destruct (0 <? word_index st) eqn:Hpos; [|invariant_fields].
  apply Nat.ltb_lt in Hpos. invariant_fields.
Qed.

Lemma invariant_advance (st : state) :
  invariant prompt_words st ->
  outcome_ok prompt_words (advance prompt_words st).
Proof.
  intros [Hlen Hidx]. unfold advance.
  destruct (_ <? _)%Z eqn:Hc; [|invariant_fields].
  apply Z.ltb_lt in Hc.
  destruct (_ <=? _) eqn:Hle; [invariant_fields|].
  apply Nat.leb_gt in Hle. lia.
Qed.

Lemma invariant_space (st : state) :
  invariant prompt_words st ->
  outcome_ok prompt_words (on_space prompt_words st).
Proof.
  intros Hinv. destruct (invariant_buffer _ Hinv) as [buf Hbuf].
  pose proof (invariant_advance _ Hinv) as Hadv.
  unfold on_space. rewrite Hbuf.
  destruct (_ =? _)%Z; [|exact Hadv].
  destruct (prompt_words !! word_index st) as [expected|] eqn:Hexp.
  - destruct (bool_decide _); [exact Hinv|exact Hadv].
  - apply lookup_ge_None_1 in Hexp. destruct Hinv as [_ Hidx]. lia.
Qed.

Lemma invariant_char (st : state) (ch : ascii) :
  invariant prompt_words st -> outcome_ok prompt_words (on_char st ch).
Proof.
  intros Hinv. destruct (invariant_buffer _ Hinv) as [buf Hbuf].
  destruct Hinv as [Hlen Hidx].
  unfold on_char. rewrite Hbuf. invariant_fields.
Qed.

#[local] Hint Resolve invariant_backspace invariant_space invariant_char
  : machine.

Lemma invariant_frame (st : state) (ev : event) :
  invariant prompt_words st ->
  outcome_ok prompt_words (frame prompt_words st ev).
Proof.
  intros Hinv. destruct ev as [| |k]; simpl; try exact Hinv.
  unfold handle_key.
  destruct (is_backspace k); [auto with machine|].
  destruct (is_resize k); [exact Hinv|].
  destruct (is_space k); [auto with machine|].
  destruct k as [code|ch]; [exact Hinv|].
  destruct (isprintable ch); [auto with machine|exact Hinv].
Qed.

Lemma invariant_run (evs : list event) (st : state) :
  invariant prompt_words st ->
  outcome_ok prompt_words (run prompt_words evs st).
Proof.
  revert st. induction evs as [|ev evs IH]; intros st Hinv; simpl.
  - exact Hinv.
  - pose proof (invariant_frame st ev Hinv) as Hf.
    destruct (frame prompt_words st ev) as [st'|st'|]; simpl in Hf.
    + now apply IH.
    + exact Hf.
    + contradiction.
Qed.

(** C6. Over a non-empty prompt, whatever sequence of turns (characters,
    backspaces, spaces, resizes, other keys, turns without input, the time
    running out) the loop goes through from the initial state, one empty
    buffer and index 0, no key handler raises [IndexError] and the state
    reached satisfies [len(typed_words) - 1 == word_index] and
    [0 <= word_index < len(prompt_words)]. The sequence is arbitrary, so
    this holds after every transition. *)
Theorem invariant_reachable (evs : list event) :
  outcome_ok prompt_words (_curses_main prompt_words evs).
Proof. apply invariant_run, invariant_initial. Qed.

End Machine.

(** The theorem at the prompt "ab c" after typing "a", a space, "x", and
    three backspaces. *)
Lemma invariant_reachable_witness :
  [lit "ab"; lit "c"] <> []
  /\ outcome_ok [lit "ab"; lit "c"]
       (_curses_main [lit "ab"; lit "c"]
          [Input (KeyStr "a"); Input (KeyStr space); Input (KeyStr "x");
           Input (KeyInt KEY_BACKSPACE); Input (KeyStr "008");
           Input (KeyInt 127); NoInput; Input (KeyInt KEY_RESIZE)]).
Proof.
  split; [discriminate|].
  apply (invariant_reachable [lit "ab"; lit "c"]). discriminate.
Defined.

(** ** Scorer *)

Lemma flush_pieces (cur w : str) :
  (forall c, c ∈ cur -> isspace c = false) ->
  w ∈ flush cur ->
  w <> [] /\ forall c, c ∈ w -> isspace c = false.
Proof.
  intros Hcur Hw. destruct cur as [|c0 cur]; simpl in Hw.
  - now apply elem_of_nil in Hw.
  - apply list_elem_of_singleton in Hw as ->. split.
    + intros Hnil. apply (f_equal (@length ascii)) in Hnil.
      rewrite length_app in Hnil. simpl in Hnil. lia.
    + intros c Hc. apply Hcur.
      apply list_elem_of_In, in_rev, list_elem_of_In. exact Hc.
Qed.

(** The words of [s.split()] are not empty and hold no white space. *)
Lemma split_ws_from_pieces (s cur w : str) :
  (forall c, c ∈ cur -> isspace c = false) ->
  w ∈ split_ws_from cur s ->
  w <> [] /\ forall c, c ∈ w -> isspace c = false.
Proof.
  revert cur. induction s as [|c s IH]; intros cur Hcur Hw; simpl in Hw.
  - now apply (flush_pieces cur).
  - destruct (isspace c) eqn:Hc.
    + apply elem_of_app in Hw as [Hw | Hw].
      * now apply (flush_pieces cur).
      * apply (IH []); [|exact Hw]. intros c' Hc'.
        now apply elem_of_nil in Hc'.
    + apply (IH (c :: cur)); [|exact Hw]. intros c' Hc'.
      apply elem_of_cons in Hc' as [-> | Hc']; [exact Hc|now apply Hcur].
Qed.

Lemma sum_ones {A} (l : list A) : sum_list ((fun _ => 1) <$> l) = length l.
Proof.
  induction l as [|x l IH]; [reflexivity|].
  change (S (sum_list ((fun _ => 1) <$> l)) = S (length l)). now rewrite IH.
Qed.

Lemma correct_count_matches (b : nat) (prompt_words typed_words : list str) :
  correct_count prompt_words typed_words
  = length (matches_from b prompt_words typed_words).
Proof.
  unfold correct_count. rewrite sum_ones.
  revert b typed_words.
  induction prompt_words as [|expected pw IH]; intros b [|actual tw];
    try reflexivity.
  change (zip (expected :: pw) (actual :: tw))
    with ((expected, actual) :: zip pw tw).
  rewrite filter_cons. simpl matches_from. rewrite length_app, <- (IH (S b)).
  simpl. destruct (decide (expected = actual)); reflexivity.
Qed.

Lemma matches_from_elem (b : nat) (prompt_words typed_words : list str)
    (k : nat) :
  k ∈ matches_from b prompt_words typed_words
  <-> b <= k /\ matching prompt_words typed_words (k - b).
Proof.
  revert b typed_words.
  induction prompt_words as [|expected pw IH]; intros b [|actual tw]; simpl.
  - rewrite elem_of_nil. split; [tauto|]. intros (_ & w & H & _). discriminate.
  - rewrite elem_of_nil. split; [tauto|]. intros (_ & w & H & _). discriminate.
  - rewrite elem_of_nil. split; [tauto|]. intros (_ & w & _ & H). discriminate.
  - rewrite elem_of_app, IH. unfold matching. split.
    + intros [Hhead | (Hle & w & Hp & Ht)].
      * destruct (decide (expected = actual)) as [->|];
          [|now apply elem_of_nil in Hhead].
        apply list_elem_of_singleton in Hhead as ->.
        split; [lia|]. rewrite Nat.sub_diag. now exists actual.
      * split; [lia|]. exists w.
        replace (k - b) with (S (k - S b)) by lia. now split.
    + intros (Hle & w & Hp & Ht).
      destruct (decide (k = b)) as [->|Hne].
      * left. rewrite Nat.sub_diag in Hp, Ht. simpl in Hp, Ht.
        assert (expected = actual) as -> by congruence.
        rewrite decide_True by reflexivity. now apply list_elem_of_singleton.
      * right. split; [lia|]. exists w.
        replace (k - b) with (S (k - S b)) in Hp, Ht by lia. now split.
Qed.

Lemma matches_from_NoDup (b : nat) (prompt_words typed_words : list str) :
  NoDup (matches_from b prompt_words typed_words).
Proof.
  revert b typed_words.
  induction prompt_words as [|expected pw IH]; intros b [|actual tw]; simpl;
    try apply NoDup_nil_2.
  apply NoDup_app. split; [|split; [|apply IH]].
  - destruct (decide _); [apply NoDup_singleton|apply NoDup_nil_2].
  - intros k Hk Htail. apply matches_from_elem in Htail as [Hle _].
    destruct (decide _); [|now apply elem_of_nil in Hk].
    apply list_elem_of_singleton in Hk. lia.
Qed.

Lemma length_matches_from (b : nat) (prompt_words typed_words : list str) :
  length (matches_from b prompt_words typed_words) <= length prompt_words.
Proof.
  revert b typed_words.
  induction prompt_words as [|expected pw IH]; intros b [|actual tw]; simpl;
    try lia.
  rewrite length_app. specialize (IH (S b) tw).
  destruct (decide _); simpl; lia.
Qed.

Lemma of_nat_le (n m : nat) : n <= m -> (of_nat n <= of_nat m)%Q.
Proof. intros H. unfold of_nat, Qle. simpl. lia. Qed.

Lemma of_nat_pos (n : nat) : 0 < n -> (0 < of_nat n)%Q.
Proof. intros H. unfold of_nat, Qlt. simpl. lia. Qed.

Lemma true_div_defined (a b : Q) :
  ~ (b == 0)%Q -> true_div a b = Some (a / b)%Q.
Proof.
  intros Hb. unfold true_div.
  destruct (Qeq_bool b 0) eqn:Heq; [|reflexivity].
  now apply Qeq_bool_eq in Heq.
Qed.

Lemma py_max_Qmax (a b : Q) : (py_max a b == Qmax a b)%Q.
Proof.
  unfold py_max. destruct (Qlt_le_dec a b) as [Hlt | Hle].
  - symmetry. apply Q.max_r. now apply Qlt_le_weak.
  - symmetry. now apply Q.max_l.
Qed.

Lemma py_max_epsilon_pos (a : Q) : (0 < py_max a epsilon)%Q.
Proof.
  unfold py_max. destruct (Qlt_le_dec a epsilon) as [Hlt | Hle].
  - reflexivity.
  - eapply Qlt_le_trans; [|exact Hle]. reflexivity.
Qed.

(** The scorer never divides by zero, and its result in closed form. *)
Lemma score_value (prompt typed : str) (elapsed_seconds : Q) :
  _score prompt typed elapsed_seconds
  = Some {| accuracy :=
              (of_nat (correct_count (split_ws prompt) (split_ws typed))
               / of_nat (Nat.max (length (split_ws prompt)) 1) * 100)%Q;
            wpm := (of_nat (length (split_ws typed))
                    / py_max (elapsed_seconds / 60) epsilon)%Q;
            correct := of_nat (correct_count (split_ws prompt) (split_ws typed));
            total := of_nat (Nat.max (length (split_ws prompt)) 1) |}.
Proof.
  unfold _score.
  rewrite (true_div_defined _ (of_nat _)).
  2:{ intros H. pose proof (of_nat_pos (Nat.max (length (split_ws prompt)) 1)
                              ltac:(lia)) as Hpos.
      rewrite H in Hpos. now apply Qlt_irrefl in Hpos. }
  unfold mbind, option_bind. cbv beta iota.
  rewrite (true_div_defined elapsed_seconds 60) by discriminate.
  rewrite true_div_defined; [reflexivity|].
  intros H. pose proof (py_max_epsilon_pos (elapsed_seconds / 60)) as Hpos.
  rewrite H in Hpos. now apply Qlt_irrefl in Hpos.
Qed.



(** *** The scorer on binary64 numbers *)

(** The scenario of C4 for a test of 30 seconds: the counts are exact and
    the accuracy is the binary64 number next to 200/3. *)
Example score_binary64_scenario :
  Binary64._score (lit "the quick fox") (lit "the quik fox") 30%float
  = Some {| Binary64.accuracy := 0x1.0aaaaaaaaaaaap+6%float;
            Binary64.wpm := 6%float;
            Binary64.correct := 2%float;
            Binary64.total := 3%float |}
  /\ PrimFloat.ltb 66.625%float 0x1.0aaaaaaaaaaaap+6%float = true
  /\ PrimFloat.ltb 0x1.0aaaaaaaaaaaap+6%float 66.75%float = true.
Proof. repeat split. Qed.

(** An empty prompt, nothing typed, no time elapsed: no division by zero. *)
Example score_binary64_degenerate :
  Binary64._score (lit "") (lit "") 0%float
  = Some {| Binary64.accuracy := 0%float;
            Binary64.wpm := 0%float;
            Binary64.correct := 0%float;
            Binary64.total := 1%float |}.
Proof. reflexivity. Qed.

(** ** The coordinates of the typed characters *)

(** *** Rendered texts that fit on one line *)

(** As long as the rendered text fits in the width, so that no line wraps,
    the cell of typed character [i] of word [w] is the one of offset
    [promptStarts[w] + i], on row 0, and it holds character [i] of the
    token of the word. *)
Lemma typed_char_coord_one_line (prompt_words typed_words : list str)
    (width : Z) (w i : nat) :
  let rendered_text := (_build_rendered_text prompt_words typed_words).1 in
  let start := running_length prompt_words typed_words w in
  head rendered_text <> Some space ->
  (Z.of_nat (length rendered_text) <= width)%Z ->
  w < length prompt_words ->
  i < length (token prompt_words typed_words w) ->
  typed_char_coord prompt_words typed_words width w i = Some (0, start + i)
  /\ line_char (_layout_prompt rendered_text width).1 (0, start + i)
     = token prompt_words typed_words w !! i.
Proof.
  intros rendered_text start Hhead Hfit Hw Hi.
  destruct (build_loop_closed prompt_words typed_words) as (Hr & Hs & _).
  assert (Htext : rendered_text = join [space] (tokens prompt_words typed_words)).
  { unfold rendered_text, _build_rendered_text. cbn [fst]. now rewrite Hr. }
  pose proof (join_drop _ _ _ (tokens_lookup _ typed_words _ Hw)) as Hdrop.
  rewrite offset_tokens, <- Htext in Hdrop by lia. fold start in Hdrop.
  assert (Hlen : start + length (token prompt_words typed_words w)
                 <= length rendered_text).
  { apply (f_equal length) in Hdrop.
    rewrite length_drop, length_app in Hdrop. lia. }
  assert (Hchar : rendered_text !! (start + i)
                  = token prompt_words typed_words w !! i).
  { rewrite <- (lookup_drop rendered_text start i), Hdrop.
    now rewrite lookup_app_l by exact Hi. }
  unfold typed_char_coord.
  replace (_build_rendered_text prompt_words typed_words)
    with (rendered_text,
          map (running_length prompt_words typed_words)
            (seq 0 (length prompt_words)))
    by (unfold rendered_text, _build_rendered_text; cbn [fst]; now rewrite Hs).
  rewrite (layout_one_line width rendered_text Hhead Hfit).
  split.
  - destruct (_ <=? w) eqn:Hle; [apply Nat.leb_le in Hle; lia|].
    rewrite list_lookup_fmap, lookup_seq_lt by exact Hw.
    cbn [fmap option_fmap option_map mbind option_bind Nat.add].
    fold start. rewrite length_map, length_seq.
    destruct (_ <=? start + i) eqn:Hle'; [apply Nat.leb_le in Hle'; lia|].
    rewrite list_lookup_fmap, lookup_seq_lt by lia. reflexivity.
  - unfold line_char. cbn [fst snd]. simpl. exact Hchar.
Qed.

(** C2 (the code departs from the claim). Because the layout records no
    position for the space that a line wrap replaces, the cell looked up at
    offset [promptStarts[w] + i] is not the cell of character [i] of word
    [w] once a line has wrapped. With the prompt "import", "return",
    "lambda", "async" typed in full and 20 usable columns, which the turn
    computes for a terminal of 22 columns: the builder puts "async" at
    offset 21 and the lines put its "a" at row 1, column 0, but the first
    typed character of that word is painted at row 1, column 1, over the
    "s"; and the last typed character, of offset 25, has no cell at all:
    the painting loop breaks. *)
Theorem typed_char_misplaced :
  let prompt_words := [lit "import"; lit "return"; lit "lambda"; lit "async"] in
  let typed_words := prompt_words in
  let rendered_text := (_build_rendered_text prompt_words typed_words).1 in
  let prompt_starts := (_build_rendered_text prompt_words typed_words).2 in
  let prompt_lines := (_layout_prompt rendered_text 20).1 in
  usable_width 22 = 20%Z
  /\ prompt_starts !! 3 = Some 21
  /\ rendered_text !! 21 = Some "a"%char
  /\ line_char prompt_lines (1, 0) = Some "a"%char
  /\ typed_char_coord prompt_words typed_words 20 3 0 = Some (1, 1)
  /\ line_char prompt_lines (1, 1) = Some "s"%char
  /\ typed_char_coord prompt_words typed_words 20 3 4 = None.
Proof. repeat split. Qed.

(** * Further properties *)

(** ** The lines of the layout *)

Lemma layout_state_eq (s t : layout_state) :
  lines s = lines t -> positions s = positions t -> row s = row t ->
  col s = col t -> current_line s = current_line t -> s = t.
Proof. destruct s, t; simpl; intros; subst; reflexivity. Qed.

Lemma put_chars_eq (word : str) (st : layout_state) :
  fold_left put_char word st
  = {| lines := lines st;
       positions :=
         positions st
         ++ map (fun i => (row st, col st + i)) (seq 0 (length word));
       row := row st;
       col := col st + length word;
       current_line := current_line st ++ word |}.
Proof.
  destruct (put_chars_spec word st) as (Hp & Hr & Hc & Hl & Hcl).
  now apply layout_state_eq.
Qed.

(** The three ways an iteration goes: the token starts the line it is on,
    it wraps to a new line, or it follows a space on the current line. *)
Lemma layout_word_start (width : Z) (st : layout_state) (word : str) :
  col st = 0 ->
  layout_word width st word = fold_left put_char word st.
Proof. intros Hc. unfold layout_word. rewrite Hc. simpl. now rewrite Hc. Qed.

Lemma layout_word_wrap (width : Z) (st : layout_state) (word : str) :
  0 < col st ->
  (width < Z.of_nat (col st + 1 + length word))%Z ->
  layout_word width st word = fold_left put_char word (new_line st).
Proof.
  intros Hc Hw. unfold layout_word.
  apply Nat.ltb_lt in Hc. rewrite Hc. apply Z.ltb_lt in Hw. now rewrite Hw.
Qed.

Lemma layout_word_append (width : Z) (st : layout_state) (word : str) :
  0 < col st ->
  (Z.of_nat (col st + 1 + length word) <= width)%Z ->
  layout_word width st word = fold_left put_char word (put_char st space).
Proof.
  intros Hc Hw. unfold layout_word.
  apply Nat.ltb_lt in Hc. rewrite Hc. simpl andb.
  destruct (width <? _)%Z eqn:Hlt; [apply Z.ltb_lt in Hlt; lia|].
  now rewrite Hc.
Qed.

Lemma layout_word_cases (width : Z) (st : layout_state) (word : str) :
  (col st = 0 /\ layout_word width st word = fold_left put_char word st)
  \/ (0 < col st /\ (width < Z.of_nat (col st + 1 + length word))%Z
      /\ layout_word width st word = fold_left put_char word (new_line st))
  \/ (0 < col st /\ (Z.of_nat (col st + 1 + length word) <= width)%Z
      /\ layout_word width st word
         = fold_left put_char word (put_char st space)).
Proof.
  destruct (decide (col st = 0)) as [H0 | Hpos].
  - left. split; [exact H0|now apply layout_word_start].
  - destruct (Z_lt_le_dec width (Z.of_nat (col st + 1 + length word)))
      as [Hw | Hw].
    + right. left. split; [lia|]. split; [exact Hw|].
      apply layout_word_wrap; [lia|exact Hw].
    + right. right. split; [lia|]. split; [exact Hw|].
      apply layout_word_append; [lia|exact Hw].
Qed.

Lemma cells_from_snoc (r : nat) (ls : list str) (l : str) :
  cells_from r (ls ++ [l])
  = cells_from r ls ++ map (fun c => (r + length ls, c)) (seq 0 (length l)).
Proof.
  revert r. induction ls as [|l0 ls IH]; intros r; simpl.
  - rewrite app_nil_r, Nat.add_0_r. reflexivity.
  - rewrite IH, <- app_assoc. do 2 f_equal.
    apply map_ext. intros c. f_equal. lia.
Qed.

Lemma cells_inv_put_chars (word : str) (st : layout_state) :
  cells_inv st -> cells_inv (fold_left put_char word st).
Proof.
  intros (Hp & Hr & Hc). rewrite put_chars_eq. unfold cells_inv. simpl.
  rewrite Hp, length_app, seq_app, map_app, <- app_assoc, Hc.
  split; [|split; [exact Hr|reflexivity]].
  do 2 f_equal. simpl. rewrite (map_seq_from _ (length (current_line st))).
  reflexivity.
Qed.

Lemma cells_inv_new_line (st : layout_state) :
  cells_inv st -> cells_inv (new_line st).
Proof.
  intros (Hp & Hr & Hc). unfold cells_inv, cells. simpl.
  rewrite cells_from_snoc, app_nil_r, Hp, Hr. simpl.
  split; [reflexivity|]. split; [rewrite length_app; simpl; lia|reflexivity].
Qed.

Lemma cells_inv_word (width : Z) (st : layout_state) (word : str) :
  cells_inv st -> cells_inv (layout_word width st word).
Proof.
  intros Hst.
  destruct (layout_word_cases width st word)
    as [(_ & ->) | [(_ & _ & ->) | (_ & _ & ->)]];
    apply cells_inv_put_chars; [exact Hst|now apply cells_inv_new_line|].
  apply (cells_inv_put_chars [space]), Hst.
Qed.

Lemma cells_inv_loop (width : Z) (words : list str) (st : layout_state) :
  cells_inv st -> cells_inv (layout_loop width words st).
Proof.
  revert st. induction words as [|word words IH]; intros st Hst; simpl.
  - exact Hst.
  - apply IH, cells_inv_word, Hst.
Qed.

Lemma cells_inv_init : cells_inv layout_init.
Proof. repeat split. Qed.

Lemma layout_prompt_lines (text : str) (width : Z) :
  (_layout_prompt text width).1
  = output_lines (layout_loop width (split_on space text) layout_init).
Proof. reflexivity. Qed.

Lemma output_cells (st : layout_state) :
  cells_inv st -> positions st = cells (output_lines st).
Proof.
  intros (Hp & Hr & Hc). unfold output_lines.
  destruct (nonempty (current_line st)) eqn:Hcl; simpl orb.
  - unfold cells. rewrite cells_from_snoc. simpl. now rewrite <- Hr.
  - apply nonempty_false in Hcl. rewrite Hcl in Hp. simpl in Hp.
    rewrite app_nil_r in Hp.
    destruct (lines st) as [|l ls] eqn:Hl; simpl negb; cbv iota.
    + rewrite Hcl. simpl. exact Hp.
    + exact Hp.
Qed.

(** X1. For every text and width, the positions that the layout returns
    are exactly the screen cells of the lines it returns, row by row and
    column by column: every recorded position is a character of a line, and
    every character of a line has its position. *)
Theorem layout_positions_are_cells (text : str) (width : Z) :
  (_layout_prompt text width).2 = cells (_layout_prompt text width).1.
Proof.
  rewrite layout_prompt_lines. unfold _layout_prompt. cbn [snd].
  apply output_cells, cells_inv_loop, cells_inv_init.
Qed.

(** *** The length of the lines *)

Section LineLengths.

Variable width : Z.
Variable words : list str.

Lemma line_ok_word (word : str) : In word words -> line_ok width words word.
Proof.
  intros Hin. unfold line_ok.
  destruct (Z_lt_le_dec width (Z.of_nat (length word))); [right|left]; auto.
Qed.

Lemma lines_inv_word (st : layout_state) (word : str) :
  In word words ->
  lines_inv width words st ->
  lines_inv width words (layout_word width st word).
Proof.
  intros Hin (Hls & Hcl & Hc).
  destruct (layout_word_cases width st word)
    as [(H0 & ->) | [(Hpos & Hw & ->) | (Hpos & Hw & ->)]];
    rewrite put_chars_eq; unfold lines_inv; simpl.
  - assert (Hnil : current_line st = []).
    { destruct (current_line st); [reflexivity|simpl in Hc; lia]. }
    rewrite Hnil. simpl. split; [exact Hls|].
    split; [now apply line_ok_word|lia].
  - split; [apply Forall_app; split; [exact Hls|now constructor]|].
    split; [now apply line_ok_word|reflexivity].
  - split; [exact Hls|]. split; [|rewrite !length_app; simpl; lia].
    left. rewrite !length_app. simpl. lia.
Qed.

Lemma lines_inv_loop (ws : list str) (st : layout_state) :
  (forall w, In w ws -> In w words) ->
  lines_inv width words st ->
  lines_inv width words (layout_loop width ws st).
Proof.
  revert st. induction ws as [|w ws IH]; intros st Hsub Hst; simpl.
  - exact Hst.
  - apply IH; [intros w' Hw'; apply Hsub; now right|].
    apply lines_inv_word; [apply Hsub; now left|exact Hst].
Qed.

Lemma lines_inv_output (st : layout_state) (line : str) :
  lines_inv width words st ->
  In line (output_lines st) -> line_ok width words line.
Proof.
  intros (Hls & Hcl & _) Hin.
  assert (Hall : Forall (line_ok width words) (lines st ++ [current_line st])).
  { apply Forall_app. split; [exact Hls|now constructor]. }
  unfold output_lines in Hin. rewrite Forall_forall in Hall, Hls.
  destruct (_ || _); [apply Hall; now apply list_elem_of_In|].
  apply Hls. now apply list_elem_of_In.
Qed.

End LineLengths.

(** X2. For every text and every width >= 0, each line that the layout
    returns either fits in the width or consists of exactly one token of
    the text that is longer than the width: a long token is never split and
    never shares its line. *)
Theorem layout_lines_within_width (text : str) (width : Z) (line : str) :
  (0 <= width)%Z ->
  In line (_layout_prompt text width).1 ->
  (Z.of_nat (length line) <= width)%Z
  \/ (In line (split_on space text) /\ (width < Z.of_nat (length line))%Z).
Proof.
  intros Hwidth Hin. rewrite layout_prompt_lines in Hin.
  refine (lines_inv_output width (split_on space text) _ line _ Hin).
  apply lines_inv_loop; [auto|].
  unfold lines_inv, line_ok. simpl. split; [constructor|]. split; [|reflexivity].
  left. lia.
Qed.

(** The theorem at the text "ab abcdef" and width 3, for the second line. *)
Lemma layout_lines_within_width_witness :
  (0 <= 3)%Z
  /\ In (lit "abcdef") (_layout_prompt (lit "ab abcdef") 3).1
  /\ ((Z.of_nat (length (lit "abcdef")) <= 3)%Z
      \/ (In (lit "abcdef") (split_on space (lit "ab abcdef"))
          /\ (3 < Z.of_nat (length (lit "abcdef")))%Z)).
Proof.
  assert (Hin : In (lit "abcdef") (_layout_prompt (lit "ab abcdef") 3).1)
    by (right; left; reflexivity).
  split; [lia|]. split; [exact Hin|].
  apply (layout_lines_within_width (lit "ab abcdef") 3 (lit "abcdef"));
    [lia|exact Hin].
Defined.

(** *** The lines give the text back *)

Lemma join_last_app (ls : list str) (a b : str) :
  join [space] (ls ++ [a ++ b]) = join [space] (ls ++ [a]) ++ b.
Proof.
  induction ls as [|l ls IH]; [reflexivity|].
  change ((l :: ls) ++ [a ++ b]) with (l :: (ls ++ [a ++ b])).
  change ((l :: ls) ++ [a]) with (l :: (ls ++ [a])).
  rewrite !join_cons by (destruct ls; discriminate).
  rewrite IH, <- app_assoc. reflexivity.
Qed.

(** When no token is empty, the lines and the current line, joined by
    single spaces, are the tokens laid so far joined by single spaces. *)
Lemma layout_loop_join (width : Z) (w0 : str) (ws : list str) :
  (forall w, In w (w0 :: ws) -> w <> []) ->
  let st := layout_loop width (w0 :: ws) layout_init in
  current_line st <> []
  /\ col st = length (current_line st)
  /\ join [space] (lines st ++ [current_line st]) = join [space] (w0 :: ws).
Proof.
  induction ws as [|w ws IH] using rev_ind; intros Hne.
  - unfold layout_loop. cbn [fold_left].
    rewrite layout_word_start, put_chars_eq by reflexivity. simpl.
    split; [apply Hne; now left|]. split; reflexivity.
  - change (w0 :: ws ++ [w]) with ((w0 :: ws) ++ [w]) in *.
    destruct IH as (Hcl & Hc & Hj).
    { intros w' Hw'. apply Hne, in_or_app. now left. }
    assert (Hw : w <> []) by (apply Hne, in_or_app; right; now left).
    rewrite layout_loop_snoc, join_snoc by discriminate.
    set (st := layout_loop width (w0 :: ws) layout_init) in *.
    assert (Hpos : 0 < col st).
    { rewrite Hc. destruct (current_line st); [congruence|simpl; lia]. }
    destruct (layout_word_cases width st w)
      as [(H0 & _) | [(_ & _ & ->) | (_ & _ & ->)]]; [lia| |];
      rewrite put_chars_eq; simpl.
    + split; [exact Hw|]. split; [reflexivity|].
      rewrite join_snoc by (destruct (lines st); discriminate).
      now rewrite Hj.
    + split; [destruct (current_line st); discriminate|].
      split; [rewrite !length_app; simpl; lia|].
      rewrite <- app_assoc, join_last_app, Hj. reflexivity.
Qed.

Lemma output_lines_nonempty (st : layout_state) :
  current_line st <> [] -> output_lines st = lines st ++ [current_line st].
Proof.
  intros Hcl. unfold output_lines. apply nonempty_true in Hcl.
  now rewrite Hcl.
Qed.

Lemma layout_words_join (width : Z) (words : list str) :
  words <> [] ->
  (forall w, In w words -> w <> []) ->
  join [space] (output_lines (layout_loop width words layout_init))
  = join [space] words.
Proof.
  intros Hwords Hne. destruct words as [|w0 ws]; [congruence|].
  destruct (layout_loop_join width w0 ws Hne) as (Hcl & _ & Hj).
  rewrite output_lines_nonempty by exact Hcl. exact Hj.
Qed.

(** X3. For every width, when the text is made of non-empty tokens
    separated by single spaces (no leading, trailing or doubled space), the
    lines that the layout returns, joined by single spaces, are the text:
    wrapping only replaces spaces by line breaks. *)
Theorem layout_lines_give_text (text : str) (width : Z) :
  (forall w, In w (split_on space text) -> w <> []) ->
  join [space] (_layout_prompt text width).1 = text.
Proof.
  intros Hne. rewrite layout_prompt_lines.
  rewrite layout_words_join; [apply join_split_on| |exact Hne].
  apply split_on_nonempty.
Qed.

(** The theorem at the text "hello world foo" and width 10. *)
Lemma layout_lines_give_text_witness :
  join [space] (_layout_prompt (lit "hello world foo") 10).1
  = lit "hello world foo".
Proof.
  apply (layout_lines_give_text (lit "hello world foo") 10).
  intros w [<- | [<- | [<- | []]]]; discriminate.
Defined.

Lemma length_cells_from (r : nat) (ls : list str) :
  length (cells_from r ls) = sum_list_with (@length ascii) ls.
Proof.
  revert r. induction ls as [|l ls IH]; intros r; simpl; [reflexivity|].
  now rewrite length_app, length_map, length_seq, IH.
Qed.

Lemma length_join (ls : list str) :
  ls <> [] ->
  length (join [space] ls) + 1 = sum_list_with (@length ascii) ls + length ls.
Proof.
  induction ls as [|l ls IH]; [congruence|]. intros _.
  destruct ls as [|l' ls]; [simpl; lia|].
  rewrite join_cons by discriminate.
  rewrite length_app. cbn [length sum_list_with] in *.
  specialize (IH ltac:(discriminate)). lia.
Qed.

(** X4. For every width, when the text is made of non-empty tokens
    separated by single spaces, the layout records one position less than
    the text has characters for each line after the first:
    [len(positions) + len(lines) = len(text) + 1]. So [positions] is
    aligned with the text only while the text stays on one line. *)
Theorem layout_positions_deficit (text : str) (width : Z) :
  (forall w, In w (split_on space text) -> w <> []) ->
  length (_layout_prompt text width).2 + length (_layout_prompt text width).1
  = length text + 1.
Proof.
  intros Hne.
  pose proof (layout_words_join width _ (split_on_nonempty space text) Hne)
    as Hjoin.
  rewrite join_split_on in Hjoin.
  rewrite layout_prompt_lines. unfold _layout_prompt. cbn [snd].
  set (st := layout_loop width (split_on space text) layout_init) in *.
  rewrite (output_cells st)
    by (apply cells_inv_loop, cells_inv_init).
  unfold cells. rewrite length_cells_from.
  assert (Hls : output_lines st <> []).
  { unfold output_lines. destruct (_ || _) eqn:Hb.
    - destruct (lines st); discriminate.
    - apply orb_false_iff in Hb as [_ Hb]. apply negb_false_iff in Hb.
      now apply nonempty_true in Hb. }
  rewrite <- (length_join _ Hls), Hjoin. reflexivity.
Qed.

(** The theorem at the text "hello world foo" and width 10: 14 positions
    and 2 lines for 15 characters. *)
Lemma layout_positions_deficit_witness :
  length (_layout_prompt (lit "hello world foo") 10).2
  + length (_layout_prompt (lit "hello world foo") 10).1
  = length (lit "hello world foo") + 1.
Proof.
  apply (layout_positions_deficit (lit "hello world foo") 10).
  intros w [<- | [<- | [<- | []]]]; discriminate.
Defined.

(** ** The slots of the rendered text *)

Lemma lookup_repeat {A} (x : A) (n i : nat) :
  i < n -> repeat x n !! i = Some x.
Proof.
  revert i. induction n as [|n IH]; intros i Hi; [lia|].
  destruct i as [|i]; simpl; [reflexivity|]. apply IH. lia.
Qed.

Lemma length_token (prompt_words typed_words : list str) (w : nat)
    (word : str) :
  prompt_words !! w = Some word ->
  length (token prompt_words typed_words w)
  = Nat.max (length word) (length (default [] (typed_words !! w))).
Proof.
  intros Hw. rewrite (token_padding _ _ _ _ Hw), length_app, repeat_length.
  unfold padding. lia.
Qed.

Lemma token_lookup (prompt_words typed_words : list str) (w i : nat)
    (word : str) :
  prompt_words !! w = Some word ->
  i < length (token prompt_words typed_words w) ->
  token prompt_words typed_words w !! i = Some (nth i word space).
Proof.
  intros Hw Hi. rewrite (token_padding _ _ _ _ Hw) in *.
  destruct (nth_lookup_or_length word i space) as [Hsome | Hge].
  - apply lookup_lt_Some in Hsome as Hlt.
    now rewrite lookup_app_l by exact Hlt.
  - rewrite lookup_app_r by lia. rewrite nth_overflow by lia.
    rewrite length_app, repeat_length in Hi.
    apply lookup_repeat. lia.
Qed.

(** The rendered text, read from the start of a token. *)
Lemma rendered_text_lookup (prompt_words typed_words : list str) (w i : nat) :
  w < length prompt_words ->
  i < length (token prompt_words typed_words w) ->
  (_build_rendered_text prompt_words typed_words).1
    !! (running_length prompt_words typed_words w + i)
  = token prompt_words typed_words w !! i.
Proof.
  intros Hw Hi.
  destruct (build_loop_closed prompt_words typed_words) as (Hr & _ & _).
  unfold _build_rendered_text. cbn [fst]. rewrite Hr.
  pose proof (join_drop _ _ _ (tokens_lookup _ typed_words _ Hw)) as Hdrop.
  rewrite offset_tokens in Hdrop by lia.
  rewrite <- lookup_drop, Hdrop. now rewrite lookup_app_l by exact Hi.
Qed.

Lemma prompt_starts_lookup (prompt_words typed_words : list str) (w : nat) :
  w < length prompt_words ->
  (_build_rendered_text prompt_words typed_words).2 !! w
  = Some (running_length prompt_words typed_words w).
Proof.
  intros Hw.
  destruct (build_loop_closed prompt_words typed_words) as (_ & Hs & _).
  unfold _build_rendered_text. cbn [snd]. rewrite Hs.
  rewrite list_lookup_fmap, lookup_seq_lt by exact Hw. reflexivity.
Qed.

(** X5. For every prompt word [w] and every index [i] below the longer of
    the word and of what was typed for it, the rendered text has a
    character at offset [prompt_starts[w] + i]: character [i] of the word,
    or a padding space when [i] is past the end of the word. So every
    typed character, overtyped ones included, has a slot of its own in the
    rendered text. *)
Theorem rendered_text_slots (prompt_words typed_words : list str) (w i : nat)
    (word : str) :
  prompt_words !! w = Some word ->
  i < Nat.max (length word) (length (default [] (typed_words !! w))) ->
  exists start,
    (_build_rendered_text prompt_words typed_words).2 !! w = Some start
    /\ (_build_rendered_text prompt_words typed_words).1 !! (start + i)
       = Some (nth i word space).
Proof.
  intros Hw Hi. pose proof (lookup_lt_Some _ _ _ Hw) as Hlt.
  rewrite <- (length_token _ typed_words _ _ Hw) in Hi.
  exists (running_length prompt_words typed_words w).
  split; [now apply prompt_starts_lookup|].
  rewrite rendered_text_lookup by assumption.
  now apply token_lookup.
Qed.

(** The theorem at the word "cat" typed as "catdog", for the sixth typed
    character. *)
Lemma rendered_text_slots_witness :
  exists start,
    (_build_rendered_text [lit "cat"; lit "dog"] [lit "catdog"]).2 !! 0
    = Some start
    /\ (_build_rendered_text [lit "cat"; lit "dog"] [lit "catdog"]).1
         !! (start + 5)
       = Some (nth 5 (lit "cat") space).
Proof.
  apply (rendered_text_slots [lit "cat"; lit "dog"] [lit "catdog"] 0 5
           (lit "cat")); [reflexivity|simpl; lia].
Defined.

Lemma running_length_lt (prompt_words typed_words : list str) (w w' : nat) :
  w < w' ->
  running_length prompt_words typed_words w
  + length (token prompt_words typed_words w)
  < running_length prompt_words typed_words w'.
Proof.
  induction 1 as [|w' Hle IH]; simpl; lia.
Qed.

(** X6. The slots of two different typed characters are different: from
    the offset [prompt_starts[w] + i] of a character within the token of
    word [w], the word and the index are recovered. *)
Theorem rendered_text_slots_injective (prompt_words typed_words : list str)
    (w i w' i' start start' : nat) :
  (_build_rendered_text prompt_words typed_words).2 !! w = Some start ->
  (_build_rendered_text prompt_words typed_words).2 !! w' = Some start' ->
  i < length (token prompt_words typed_words w) ->
  i' < length (token prompt_words typed_words w') ->
  start + i = start' + i' ->
  w = w' /\ i = i'.
Proof.
  intros Hs Hs' Hi Hi' Heq.
  assert (Hlen : length (_build_rendered_text prompt_words typed_words).2
                 = length prompt_words).
  { destruct (build_loop_closed prompt_words typed_words) as (_ & H & _).
    unfold _build_rendered_text. cbn [snd].
    now rewrite H, length_map, length_seq. }
  apply lookup_lt_Some in Hs as Hw. apply lookup_lt_Some in Hs' as Hw'.
  rewrite Hlen in Hw, Hw'.
  rewrite prompt_starts_lookup in Hs, Hs' by assumption.
  injection Hs as <-. injection Hs' as <-.
  destruct (Nat.lt_trichotomy w w') as [Hlt | [-> | Hgt]].
  - pose proof (running_length_lt prompt_words typed_words _ _ Hlt). lia.
  - split; [reflexivity|lia].
  - pose proof (running_length_lt prompt_words typed_words _ _ Hgt). lia.
Qed.

(** The theorem at the prompt "cat dog" with "catdog" typed for "cat". *)
Lemma rendered_text_slots_injective_witness :
  (_build_rendered_text [lit "cat"; lit "dog"] [lit "catdog"]).2 !! 0 = Some 0
  /\ 5 < length (token [lit "cat"; lit "dog"] [lit "catdog"] 0)
  /\ (0 = 0 /\ 5 = 5).
Proof.
  split; [reflexivity|]. split; [simpl; lia|].
  apply (rendered_text_slots_injective [lit "cat"; lit "dog"] [lit "catdog"]
           0 5 0 5 0 0); try reflexivity; simpl; lia.
Defined.

(** X7. When no word is overtyped (for every prompt word, what was typed
    for it is not longer than the word), the rendered text is the prompt
    words joined by single spaces: rendering differs from the prompt only
    by the padding of overtyped words. This is so in the initial state. *)
Theorem rendered_text_without_overtyping (prompt_words typed_words : list str) :
  (forall w word,
     prompt_words !! w = Some word ->
     length (default [] (typed_words !! w)) <= length word) ->
  (_build_rendered_text prompt_words typed_words).1
  = join [space] prompt_words.
Proof.
  intros Hshort.
  destruct (build_loop_closed prompt_words typed_words) as (Hr & _ & _).
  unfold _build_rendered_text. cbn [fst]. rewrite Hr. f_equal.
  apply list_eq. intros w.
  destruct (prompt_words !! w) as [word|] eqn:Hw.
  - rewrite tokens_lookup by (now apply lookup_lt_Some in Hw).
    rewrite (token_padding _ _ _ _ Hw). f_equal.
    unfold padding. specialize (Hshort _ _ Hw).
    replace (Z.to_nat _) with 0 by lia. apply app_nil_r.
  - apply lookup_ge_None_2. rewrite length_tokens.
    now apply lookup_ge_None_1.
Qed.

(** The theorem at the initial buffers, for the prompt "the quick fox". *)
Lemma rendered_text_without_overtyping_witness :
  (_build_rendered_text [lit "the"; lit "quick"; lit "fox"]
     (typed_words initial)).1
  = join [space] [lit "the"; lit "quick"; lit "fox"].
Proof.
  apply (rendered_text_without_overtyping
           [lit "the"; lit "quick"; lit "fox"] (typed_words initial)).
  intros [|[|[|w]]] word H; simpl in *; try discriminate; lia.
Defined.

(** ** What the buffers hold *)

Lemma typable_facts (c : ascii) :
  typable c ->
  isspace c = false /\ is_backspace (KeyStr c) = false
  /\ is_space (KeyStr c) = false.
Proof.
  intros [Hp Hs].
  destruct c as [[] [] [] [] [] [] [] []];
    first [discriminate Hp
          | exfalso; apply Hs; reflexivity
          | repeat split; reflexivity].
Qed.

Lemma Forall_removelast {A} (P : A -> Prop) (l : list A) :
  Forall P l -> Forall P (removelast l).
Proof. rewrite removelast_firstn_len. apply Forall_take. Qed.

Lemma clean_backspace (st : state) :
  clean st ->
  match on_backspace st with
  | Continue st' | Break st' => clean st'
  | IndexError => True
  end.
Proof.
  intros Hst. unfold on_backspace.
  destruct (typed_words st !! word_index st) as [buf|] eqn:Hbuf; [|exact I].
  destruct (nonempty buf).
  - apply Forall_insert; [exact Hst|].
    apply Forall_removelast. eapply Forall_lookup_1; eassumption.
  - destruct (0 <? word_index st); [|exact Hst].
    now apply Forall_removelast.
Qed.

Lemma clean_advance (prompt_words : list str) (st : state) :
  clean st ->
  match advance prompt_words st with
  | Continue st' | Break st' => clean st'
  | IndexError => True
  end.
Proof.
  intros Hst. unfold advance. destruct (_ <? _)%Z; [|exact Hst].
  unfold clean. simpl. destruct (_ <=? _); [|exact Hst].
  apply Forall_app. split; [exact Hst|]. now repeat constructor.
Qed.

Lemma clean_space (prompt_words : list str) (st : state) :
  clean st ->
  match on_space prompt_words st with
  | Continue st' | Break st' => clean st'
  | IndexError => True
  end.
Proof.
  intros Hst. pose proof (clean_advance prompt_words st Hst) as Hadv.
  unfold on_space. destruct (_ =? _)%Z; [|exact Hadv].
  destruct (typed_words st !! word_index st); [|exact I].
  destruct (prompt_words !! word_index st); [|exact I].
  destruct (bool_decide _); [exact Hst|exact Hadv].
Qed.

Lemma clean_char (st : state) (ch : ascii) :
  typable ch ->
  clean st ->
  match on_char st ch with
  | Continue st' | Break st' => clean st'
  | IndexError => True
  end.
Proof.
  intros Hch Hst. unfold on_char.
  destruct (typed_words st !! word_index st) as [buf|] eqn:Hbuf; [|exact I].
  apply Forall_insert; [exact Hst|].
  apply Forall_app. split; [|constructor; [exact Hch|constructor]].
  eapply Forall_lookup_1; eassumption.
Qed.

Lemma clean_frame (prompt_words : list str) (st : state) (ev : event) :
  clean st ->
  match frame prompt_words st ev with
  | Continue st' | Break st' => clean st'
  | IndexError => True
  end.
Proof.
  intros Hst. destruct ev as [| |k]; simpl; try exact Hst.
  unfold handle_key.
  destruct (is_backspace k); [now apply clean_backspace|].
  destruct (is_resize k); [exact Hst|].
  destruct (is_space k) eqn:Hsp; [now apply clean_space|].
  destruct k as [code|ch]; [exact Hst|].
  destruct (isprintable ch) eqn:Hp; [|exact Hst].
  apply clean_char; [|exact Hst]. split; [exact Hp|].
  simpl in Hsp. now apply Ascii.eqb_neq.
Qed.

Lemma clean_run (prompt_words : list str) (evs : list event) (st : state) :
  clean st ->
  match run prompt_words evs st with
  | Continue st' | Break st' => clean st'
  | IndexError => True
  end.
Proof.
  revert st. induction evs as [|ev evs IH]; intros st Hst; simpl.
  - exact Hst.
  - pose proof (clean_frame prompt_words st ev Hst) as Hf.
    destruct (frame prompt_words st ev) as [st'|st'|];
      [now apply IH|exact Hf|exact I].
Qed.

Lemma clean_initial : clean initial.
Proof. repeat constructor. Qed.

Lemma clean_main (prompt_words : list str) (evs : list event) (st : state) :
  _curses_main prompt_words evs = Continue st
  \/ _curses_main prompt_words evs = Break st ->
  clean st.
Proof.
  intros Hrun.
  pose proof (clean_run prompt_words evs initial clean_initial) as H.
  unfold _curses_main in Hrun. now destruct Hrun as [Hrun | Hrun];
    rewrite Hrun in H.
Qed.

(** X8. Whatever the prompt and the turns, every character that the loop
    has put in a buffer is printable and is neither the space nor any other
    white space nor a backspace character: the space key and the backspace
    keys are never typed into a word. *)
Theorem typed_buffers_clean (prompt_words : list str) (evs : list event)
    (st : state) (buf : str) (c : ascii) :
  _curses_main prompt_words evs = Continue st
  \/ _curses_main prompt_words evs = Break st ->
  In buf (typed_words st) ->
  In c buf ->
  isprintable c = true /\ c <> space /\ isspace c = false
  /\ is_backspace (KeyStr c) = false.
Proof.
  intros Hrun Hbuf Hc. apply clean_main in Hrun.
  unfold clean in Hrun. rewrite Forall_forall in Hrun.
  apply list_elem_of_In, Hrun in Hbuf. rewrite Forall_forall in Hbuf.
  apply list_elem_of_In, Hbuf in Hc.
  destruct (typable_facts c Hc) as (Hws & Hbs & _).
  destruct Hc as [Hp Hs]. repeat split; assumption.
Qed.

(** The theorem after the keys "a", tab, space, "b". *)
Lemma typed_buffers_clean_witness :
  isprintable "b" = true /\ "b"%char <> space /\ isspace "b" = false
  /\ is_backspace (KeyStr "b") = false.
Proof.
  apply (typed_buffers_clean [lit "a"; lit "bc"]
           [Input (KeyStr "a"); Input (KeyStr "009"); Input (KeyStr space);
            Input (KeyStr "b")]
           {| typed_words := [lit "a"; lit "b"]; word_index := 1 |}
           (lit "b") "b");
    [left; reflexivity|right; left; reflexivity|left; reflexivity].
Defined.

(** ** The transcript *)

Lemma split_ws_from_word (w cur rest : str) :
  Forall (fun c => isspace c = false) w ->
  split_ws_from cur (w ++ rest) = split_ws_from (rev w ++ cur) rest.
Proof.
  revert cur. induction w as [|c w IH]; intros cur Hw; [reflexivity|].
  inversion Hw as [|? ? Hc Hw']; subst. simpl. rewrite Hc, IH by exact Hw'.
  now rewrite <- app_assoc.
Qed.

Lemma split_ws_from_space (cur rest : str) :
  split_ws_from cur (space :: rest) = flush cur ++ split_ws_from [] rest.
Proof. reflexivity. Qed.

Lemma flush_rev (w : str) : flush (rev w) = if nonempty w then [w] else [].
Proof.
  destruct w as [|c w]; [reflexivity|]. unfold flush.
  destruct (rev (c :: w)) eqn:Hrev.
  - apply (f_equal (@length ascii)) in Hrev.
    rewrite length_rev in Hrev. discriminate.
  - now rewrite <- Hrev, rev_involutive.
Qed.

Lemma filter_nonempty_cons (w : str) (ws : list str) :
  filter (fun b : str => b <> []) (w :: ws)
  = (if nonempty w then [w] else []) ++ filter (fun b : str => b <> []) ws.
Proof.
  rewrite filter_cons. destruct w as [|c w]; simpl nonempty; cbv iota.
  - destruct (decide _) as [H|_]; [now destruct H|reflexivity].
  - destruct (decide _) as [_|H]; [reflexivity|now destruct H].
Qed.

(** Splitting on white space a text joined from words without white space
    gives the words that are not empty. *)
Lemma split_ws_join (ws : list str) :
  Forall (Forall (fun c => isspace c = false)) ws ->
  split_ws (join [space] ws) = filter (fun b : str => b <> []) ws.
Proof.
  unfold split_ws. induction ws as [|w ws IH]; intros Hws; [reflexivity|].
  inversion Hws as [|? ? Hw Hws']; subst.
  rewrite filter_nonempty_cons. destruct ws as [|w' ws].
  - simpl join. rewrite <- (app_nil_r w) at 1.
    rewrite split_ws_from_word by exact Hw. simpl.
    now rewrite app_nil_r, flush_rev, app_nil_r.
  - rewrite join_cons by discriminate.
    rewrite split_ws_from_word, split_ws_from_space by exact Hw.
    now rewrite app_nil_r, flush_rev, IH.
Qed.

Lemma clean_no_space (st : state) :
  clean st ->
  Forall (Forall (fun c => isspace c = false)) (typed_words st).
Proof.
  unfold clean. intros Hst.
  eapply Forall_impl; [exact Hst|]. intros buf Hbuf.
  eapply Forall_impl; [exact Hbuf|]. intros c Hc.
  apply (typable_facts c Hc).
Qed.

(** X9. Whenever a session returns, the words that the scorer gets from
    the transcript with [typed.split()] are the buffers that are not
    empty, in their order: a word left empty leaves no trace, so the words
    typed after it are compared with earlier prompt words. *)
Theorem transcript_words (prompt : str) (evs : list event) (typed : str) :
  _run_curses_test prompt evs = Some typed ->
  exists st,
    _curses_main (split_on space prompt) evs = Break st
    /\ typed = join [space] (typed_words st)
    /\ split_ws typed = filter (fun b : str => b <> []) (typed_words st).
Proof.
  unfold _run_curses_test. intros Hrun.
  destruct (_curses_main (split_on space prompt) evs) as [st|st|] eqn:Hmain;
    try discriminate.
  injection Hrun as <-. exists st. split; [reflexivity|].
  split; [reflexivity|].
  apply split_ws_join, clean_no_space.
  apply (clean_main (split_on space prompt) evs). now right.
Qed.

(** The theorem for the prompt "a b c" when the first word is skipped:
    the scorer gets "b" and "c" as the first and second typed words. *)
Lemma transcript_words_witness :
  exists st,
    _curses_main (split_on space (lit "a b c"))
      [Input (KeyStr space); Input (KeyStr "b"); Input (KeyStr space);
       Input (KeyStr "c"); Input (KeyStr space)]
    = Break st
    /\ lit " b c" = join [space] (typed_words st)
    /\ split_ws (lit " b c")
       = filter (fun b : str => b <> []) (typed_words st).
Proof.
  apply (transcript_words (lit "a b c")
           [Input (KeyStr space); Input (KeyStr "b"); Input (KeyStr space);
            Input (KeyStr "c"); Input (KeyStr space)]
           (lit " b c")).
  reflexivity.
Defined.

(** ** How a session ends *)

Lemma frame_break (prompt_words : list str) (st st' : state) (ev : event) :
  frame prompt_words st ev = Break st' ->
  st' = st
  /\ (ev = Expired
      \/ (S (word_index st) = length prompt_words
          /\ exists word,
               typed_words st !! word_index st = Some word
               /\ prompt_words !! word_index st = Some word)).
Proof.
  destruct ev as [| |k]; simpl; [intros [= <-]; auto|discriminate|].
  unfold handle_key.
  destruct (is_backspace k).
  { unfold on_backspace. destruct (_ !! _); [|discriminate].
    destruct (nonempty _); [discriminate|].
    destruct (0 <? _); discriminate. }
  destruct (is_resize k); [discriminate|].
  assert (Hadv : advance prompt_words st <> Break st').
  { unfold advance. destruct (_ <? _)%Z; discriminate. }
  destruct (is_space k).
  - unfold on_space. destruct (_ =? _)%Z eqn:Hlast; [|congruence].
    apply Z.eqb_eq in Hlast.
    destruct (typed_words st !! word_index st) as [typed|]; [|discriminate].
    destruct (prompt_words !! word_index st) as [expected|]; [|discriminate].
    destruct (bool_decide_reflect (typed = expected)) as [->|]; [|congruence].
    intros [= <-]. split; [reflexivity|]. right. split; [lia|eauto].
  - destruct k as [code|ch]; [discriminate|].
    destruct (isprintable ch); [|discriminate].
    unfold on_char. destruct (_ !! _); discriminate.
Qed.

(** X10. A session that ends before the time is up ends on the last word
    of the prompt with that word typed exactly, whatever was typed for the
    words before it: when no turn finds the time expired and the loop has
    broken, [word_index] is the last index and the buffer at it equals the
    last prompt word. *)
Theorem early_exit_last_word (prompt_words : list str) (evs : list event)
    (st : state) :
  ~ In Expired evs ->
  _curses_main prompt_words evs = Break st ->
  S (word_index st) = length prompt_words
  /\ exists word,
       typed_words st !! word_index st = Some word
       /\ prompt_words !! word_index st = Some word.
Proof.
  unfold _curses_main. generalize initial as st0.
  induction evs as [|ev evs IH]; intros st0 Hin Hrun; simpl in Hrun;
    [discriminate|].
  destruct (frame prompt_words st0 ev) as [st1|st1|] eqn:Hf;
    [|injection Hrun as ->|discriminate].
  - apply (IH st1); [|exact Hrun]. intros H. apply Hin. now right.
  - apply frame_break in Hf as (-> & [-> | Hlast]); [|exact Hlast].
    exfalso. apply Hin. now left.
Qed.

(** The theorem for the prompt "ab c" with the first word mistyped. *)
Lemma early_exit_last_word_witness :
  S 1 = length [lit "ab"; lit "c"]
  /\ exists word,
       [lit "x"; lit "c"] !! 1 = Some word
       /\ [lit "ab"; lit "c"] !! 1 = Some word.
Proof.
  apply (early_exit_last_word [lit "ab"; lit "c"]
           [Input (KeyStr "x"); Input (KeyStr space); Input (KeyStr "c");
            Input (KeyStr space)]
           {| typed_words := [lit "x"; lit "c"]; word_index := 1 |}).
  - intros [H | [H | [H | [H | []]]]]; discriminate.
  - reflexivity.
Defined.

(** ** Typing the prompt *)

Lemma frame_typable (prompt_words : list str) (st : state) (c : ascii) :
  typable c -> frame prompt_words st (Input (KeyStr c)) = on_char st c.
Proof.
  intros Hc. destruct (typable_facts c Hc) as (_ & Hbs & Hsp).
  simpl. unfold handle_key. rewrite Hbs, Hsp. simpl.
  destruct Hc as [-> _]. reflexivity.
Qed.

Lemma run_type_word (prompt_words : list str) (word : str)
    (done : list str) (buf : str) (evs : list event) :
  Forall typable word ->
  run prompt_words (type_word word ++ evs)
    {| typed_words := done ++ [buf]; word_index := length done |}
  = run prompt_words evs
      {| typed_words := done ++ [buf ++ word]; word_index := length done |}.
Proof.
  revert buf. induction word as [|c word IH]; intros buf Hword.
  - simpl. now rewrite app_nil_r.
  - inversion Hword as [|? ? Hc Hword']; subst.
    cbn [type_word map app run]. rewrite frame_typable by exact Hc.
    unfold on_char. cbn [typed_words word_index].
    rewrite lookup_app_r, Nat.sub_diag by lia. cbn [lookup list_lookup].
    rewrite insert_app_r_alt, Nat.sub_diag by lia. cbn [insert list_insert].
    fold (type_word word). rewrite IH by exact Hword'.
    now rewrite <- app_assoc.
Qed.

Lemma type_words_cons (word : str) (words : list str) :
  type_words (word :: words)
  = type_word word ++ Input (KeyStr space) :: type_words words.
Proof. unfold type_words. simpl. now rewrite <- app_assoc. Qed.

Lemma run_type_words (prompt_words : list str) (rest done : list str)
    (word : str) :
  prompt_words = done ++ word :: rest ->
  Forall (Forall typable) (word :: rest) ->
  run prompt_words (type_words (word :: rest))
    {| typed_words := done ++ [[]]; word_index := length done |}
  = Break {| typed_words := prompt_words;
             word_index := length prompt_words - 1 |}.
Proof.
  revert prompt_words done word. induction rest as [|word' rest IH];
    intros prompt_words done word Hprompt Hall;
    inversion Hall as [|? ? Hword Hrest]; subst;
    rewrite type_words_cons, run_type_word by exact Hword;
    cbn [app run frame];
    change (handle_key ?p ?s (KeyStr space)) with (on_space p s);
    unfold on_space; cbn [typed_words word_index].
  - assert (Hlast : (Z.of_nat (length done)
                     =? Z.of_nat (length (done ++ [word])) - 1)%Z = true).
    { apply Z.eqb_eq. rewrite length_app. simpl. lia. }
    rewrite Hlast, !lookup_app_r, Nat.sub_diag by lia.
    cbn [lookup list_lookup].
    rewrite bool_decide_eq_true_2 by reflexivity.
    do 2 f_equal. rewrite length_app. simpl. lia.
  - assert (Hlast : (Z.of_nat (length done)
                     =? Z.of_nat (length (done ++ word :: word' :: rest)) - 1)%Z
                    = false).
    { apply Z.eqb_neq. rewrite length_app. simpl. lia. }
    rewrite Hlast. unfold advance. cbn [typed_words word_index].
    assert (Hlt : (Z.of_nat (length done)
                   <? Z.of_nat (length (done ++ word :: word' :: rest)) - 1)%Z
                  = true).
    { apply Z.ltb_lt. rewrite length_app. simpl. lia. }
    assert (Hle : (length (done ++ [word]) <=? length done + 1) = true).
    { apply Nat.leb_le. rewrite length_app. simpl. lia. }
    rewrite Hlt, Hle.
    replace (length done + 1) with (length (done ++ [word]))
      by (rewrite length_app; simpl; lia).
    apply IH; [|exact Hrest]. now rewrite <- app_assoc.
Qed.

(** The tokens of a split hold the characters of the text, the separator
    apart. *)
Lemma split_on_chars (s w : str) (c : ascii) :
  In w (split_on space s) -> In c w -> In c s /\ c <> space.
Proof.
  revert w. induction s as [|c0 s IH]; intros w Hw Hc; simpl in Hw.
  - destruct Hw as [<- | []]. destruct Hc.
  - destruct (Ascii.eqb_spec c0 space) as [->|Hne].
    + destruct Hw as [<- | Hw]; [destruct Hc|].
      destruct (IH w Hw Hc). split; [now right|assumption].
    + destruct (split_on space s) as [|w1 ws] eqn:Hs.
      * destruct Hw as [<- | []]. destruct Hc as [<- | []].
        split; [now left|assumption].
      * destruct Hw as [<- | Hw].
        -- destruct Hc as [<- | Hc]; [split; [now left|assumption]|].
           destruct (IH w1 (or_introl eq_refl) Hc). split; [now right|assumption].
        -- destruct (IH w (or_intror Hw) Hc). split; [now right|assumption].
Qed.

Lemma length_matches_same (b : nat) (l : list str) :
  length (matches_from b l l) = length l.
Proof.
  revert b. induction l as [|w l IH]; intros b; simpl; [reflexivity|].
  rewrite decide_True by reflexivity. simpl. now rewrite IH.
Qed.

(** Scoring a text against itself. *)
Lemma score_same (prompt : str) (elapsed_seconds : Q) :
  split_ws prompt <> [] ->
  exists r,
    _score prompt prompt elapsed_seconds = Some r
    /\ (accuracy r == 100)%Q
    /\ correct r = of_nat (length (split_ws prompt))
    /\ total r = of_nat (length (split_ws prompt)).
Proof.
  intros Hne. eexists. split; [apply score_value|]. simpl.
  rewrite (correct_count_matches 0), length_matches_same.
  assert (Hlen : 0 < length (split_ws prompt))
    by (destruct (split_ws prompt); [congruence|simpl; lia]).
  replace (Nat.max (length (split_ws prompt)) 1)
    with (length (split_ws prompt)) by lia.
  split; [|split; reflexivity].
  unfold Qdiv. rewrite Qmult_inv_r; [reflexivity|].
  intros H. pose proof (of_nat_pos _ Hlen) as Hpos.
  rewrite H in Hpos. now apply Qlt_irrefl in Hpos.
Qed.



(** ** Undoing a key *)

Lemma state_eta (st : state) :
  {| typed_words := typed_words st; word_index := word_index st |} = st.
Proof. now destruct st. Qed.

Lemma nonempty_snoc {A} (l : list A) (x : A) : nonempty (l ++ [x]) = true.
Proof. now destruct l. Qed.

Lemma undo_char (prompt_words : list str) (st : state) (k : key) (c : ascii) :
  invariant prompt_words st ->
  is_backspace k = true ->
  typable c ->
  run prompt_words [Input (KeyStr c); Input k] st = Continue st.
Proof.
  intros Hinv Hk Hc.
  destruct (invariant_buffer prompt_words st Hinv) as [buf Hbuf].
  pose proof (lookup_lt_Some _ _ _ Hbuf) as Hlt.
  cbn [run]. rewrite frame_typable by exact Hc.
  unfold on_char. rewrite Hbuf. cbn [frame].
  unfold handle_key, on_backspace. rewrite Hk. cbn [typed_words word_index].
  rewrite list_lookup_insert_eq by exact Hlt.
  rewrite nonempty_snoc, removelast_last, list_insert_insert_eq.
  rewrite list_insert_id by exact Hbuf. now rewrite state_eta.
Qed.

Lemma undo_space (prompt_words : list str) (st : state) (k : key) :
  invariant prompt_words st ->
  is_backspace k = true ->
  S (word_index st) < length prompt_words ->
  run prompt_words [Input (KeyStr space); Input k] st = Continue st.
Proof.
  intros Hinv Hk Hnext. destruct Hinv as [Hlen Hidx].
  cbn [run frame].
  change (handle_key prompt_words st (KeyStr space))
    with (on_space prompt_words st).
  unfold on_space.
  destruct (_ =? _)%Z eqn:Hlast; [apply Z.eqb_eq in Hlast; lia|].
  rewrite advance_not_last by exact Hnext.
  destruct (_ <=? _) eqn:Hle; [|apply Nat.leb_gt in Hle; lia].
  unfold handle_key, on_backspace. rewrite Hk. cbn [typed_words word_index].
  rewrite lookup_app_r by lia.
  replace (word_index st + 1 - length (typed_words st)) with 0 by lia.
  cbn [lookup list_lookup nonempty].
  destruct (0 <? _) eqn:Hpos; [|apply Nat.ltb_ge in Hpos; lia].
  rewrite removelast_last.
  replace (word_index st + 1 - 1) with (word_index st) by lia.
  now rewrite state_eta.
Qed.

(** X12. In every state that satisfies the invariant of the loop, a
    backspace key undoes the key before it: after a typable character and
    a backspace, and, before the last word, after the space key and a
    backspace, the state is the one before the two keys. *)
Theorem backspace_undoes (prompt_words : list str) (st : state) (k : key) :
  invariant prompt_words st ->
  is_backspace k = true ->
  (forall c,
     typable c ->
     run prompt_words [Input (KeyStr c); Input k] st = Continue st)
  /\ (S (word_index st) < length prompt_words ->
      run prompt_words [Input (KeyStr space); Input k] st = Continue st).
Proof.
  intros Hinv Hk. split.
  - intros c Hc. now apply undo_char.
  - intros Hnext. now apply undo_space.
Qed.

(** The theorem in the state reached by typing "a" for the prompt "ab c". *)
Lemma backspace_undoes_witness :
  run [lit "ab"; lit "c"] [Input (KeyStr "b"); Input (KeyInt KEY_BACKSPACE)]
    {| typed_words := [lit "a"]; word_index := 0 |}
  = Continue {| typed_words := [lit "a"]; word_index := 0 |}
  /\ run [lit "ab"; lit "c"]
       [Input (KeyStr space); Input (KeyInt KEY_BACKSPACE)]
       {| typed_words := [lit "a"]; word_index := 0 |}
     = Continue {| typed_words := [lit "a"]; word_index := 0 |}.
Proof.
  destruct (backspace_undoes [lit "ab"; lit "c"]
              {| typed_words := [lit "a"]; word_index := 0 |}
              (KeyInt KEY_BACKSPACE)) as [Hchar Hspace].
  - split; simpl; lia.
  - reflexivity.
  - split.
    + apply (Hchar "b"%char). split; [reflexivity|discriminate].
    + apply Hspace. simpl. lia.
Defined.

(** ** The cursor *)

(** X13. Over a non-empty prompt, in every state that the loop reaches,
    looking up the cell of the cursor raises no [IndexError], and the cell
    found, if any, is one of the positions of the layout, so a character
    cell of the painted lines. *)
Theorem cursor_cell_safe (prompt_words : list str) (evs : list event)
    (st : state) (width : Z) :
  prompt_words <> [] ->
  _curses_main prompt_words evs = Continue st ->
  exists r,
    cursor_cell prompt_words st width = Some r
    /\ forall cell,
         r = Some cell ->
         In cell
           (cells
              (_layout_prompt
                 (_build_rendered_text prompt_words (typed_words st)).1
                 (usable_width width)).1).
Proof.
  intros Hne Hrun.
  pose proof (invariant_run prompt_words evs initial
                (invariant_initial prompt_words Hne)) as Hinv.
  unfold _curses_main in Hrun. rewrite Hrun in Hinv. simpl in Hinv.
  destruct (invariant_buffer prompt_words st Hinv) as [buf Hbuf].
  destruct Hinv as [_ Hidx].
  assert (Hw : word_index st < length prompt_words) by lia.
  pose proof (prompt_starts_lookup prompt_words (typed_words st) _ Hw)
    as Hstart.
  unfold cursor_cell.
  destruct (_build_rendered_text prompt_words (typed_words st))
    as [rendered_text prompt_starts].
  cbn [fst snd] in *.
  assert (Hcells : (_layout_prompt rendered_text (usable_width width)).2
                   = cells (_layout_prompt rendered_text (usable_width width)).1).
  { rewrite layout_prompt_lines. unfold _layout_prompt. cbn [snd].
    apply output_cells, cells_inv_loop, cells_inv_init. }
  destruct (_layout_prompt rendered_text (usable_width width))
    as [prompt_lines positions].
  cbn [fst snd] in *.
  apply Nat.ltb_lt in Hw. rewrite Hw. cbn [andb].
  destruct (nonempty positions) eqn:Hpos.
  - rewrite Hstart, Hbuf. cbn [mbind option_bind].
    set (i := Nat.min _ _).
    destruct (lookup_lt_is_Some_2 positions i) as [cell Hcell].
    { apply nonempty_true in Hpos. unfold i.
      destruct positions; [congruence|simpl; lia]. }
    rewrite Hcell. cbn [mbind option_bind].
    eexists. split; [reflexivity|]. intros cell' [= <-].
    rewrite <- Hcells.
    apply list_elem_of_In, list_elem_of_lookup. eauto.
  - eexists. split; [reflexivity|]. discriminate.
Qed.

(** The theorem after typing "ab" for the prompt "ab c": the cursor is on
    the space after "ab". *)
Lemma cursor_cell_safe_witness :
  exists r,
    cursor_cell [lit "ab"; lit "c"]
      {| typed_words := [lit "ab"]; word_index := 0 |} 80
    = Some r
    /\ forall cell,
         r = Some cell ->
         In cell
           (cells
              (_layout_prompt
                 (_build_rendered_text [lit "ab"; lit "c"] [lit "ab"]).1
                 (usable_width 80)).1).
Proof.
  apply (cursor_cell_safe [lit "ab"; lit "c"]
           [Input (KeyStr "a"); Input (KeyStr "b")]
           {| typed_words := [lit "ab"]; word_index := 0 |} 80);
    [discriminate|reflexivity].
Defined.

(** ** The colours of the typed characters *)

Lemma char_matches_cons (e : ascii) (expected : str) (i : nat) (ch : ascii) :
  char_matches (e :: expected) (S i) ch = char_matches expected i ch.
Proof. reflexivity. Qed.

Lemma char_matches_true (expected : str) (i : nat) (ch : ascii) :
  char_matches expected i ch = true <-> expected !! i = Some ch.
Proof.
  unfold char_matches. destruct (i <? length expected) eqn:Hi.
  - destruct (expected !! i) as [e|]; [|split; discriminate].
    rewrite Ascii.eqb_eq. split; congruence.
  - apply Nat.ltb_ge in Hi. rewrite lookup_ge_None_2 by exact Hi.
    split; discriminate.
Qed.

(** X14. All the characters typed for a word are painted in the match
    colour exactly when what was typed is a prefix of the expected word;
    a character typed past the end of the expected word is never painted
    in the match colour. *)
Theorem typed_colours (expected_word typed_word : str) :
  ((forall i ch,
      typed_word !! i = Some ch -> char_matches expected_word i ch = true)
   <-> typed_word `prefix_of` expected_word)
  /\ (forall i ch,
        length expected_word <= i -> char_matches expected_word i ch = false).
Proof.
  split; [split|].
  - revert expected_word.
    induction typed_word as [|c typed IH]; intros expected Hall.
    + apply prefix_nil.
    + pose proof (Hall 0 c eq_refl) as H0.
      apply char_matches_true in H0.
      destruct expected as [|e expected]; [discriminate|].
      injection H0 as ->. apply prefix_cons, IH.
      intros i ch Hi. rewrite <- (char_matches_cons c). now apply (Hall (S i)).
  - intros [rest ->] i ch Hi. apply char_matches_true.
    apply lookup_app_l_Some, Hi.
  - intros i ch Hi. unfold char_matches.
    apply Nat.ltb_ge in Hi. now rewrite Hi.
Qed.

(** ** Greedy wrapping *)

Lemma split_on_spaceless (w : str) :
  Forall (fun c => c <> space) w -> split_on space w = [w].
Proof.
  induction 1 as [|c w Hc Hw IH]; [reflexivity|]. simpl.
  destruct (Ascii.eqb_spec c space) as [->|_]; [now destruct Hc|].
  now rewrite IH.
Qed.

Lemma first_token_spaceless (w : str) :
  Forall (fun c => c <> space) w -> first_token w = w.
Proof. intros Hw. unfold first_token. now rewrite split_on_spaceless. Qed.

Lemma first_token_app (a b : str) :
  first_token (a ++ space :: b) = first_token a.
Proof.
  unfold first_token. induction a as [|c a IH]; [reflexivity|].
  change ((c :: a) ++ space :: b) with (c :: (a ++ space :: b)). simpl.
  destruct (Ascii.eqb c space); [reflexivity|].
  pose proof (split_on_nonempty space (a ++ space :: b)) as H1.
  pose proof (split_on_nonempty space a) as H2.
  destruct (split_on space (a ++ space :: b)) as [|w1 ws1]; [congruence|].
  destruct (split_on space a) as [|w2 ws2]; [congruence|].
  simpl in *. now rewrite IH.
Qed.

Section Greedy.
Variable width : Z.

Lemma greedy_prefix (ls ks : list str) :
  greedy width (ls ++ ks) -> greedy width ls.
Proof.
  intros H r a b Ha Hb. apply (H r a b); now apply lookup_app_l_Some.
Qed.

(** The last line may be replaced by one whose first token is not
    shorter. *)
Lemma greedy_last (ls : list str) (b b' : str) :
  greedy width (ls ++ [b]) ->
  length (first_token b) <= length (first_token b') ->
  greedy width (ls ++ [b']).
Proof.
  intros H Hle r x y Hx Hy.
  destruct (decide (S r < length ls)) as [Hlt|Hge].
  - rewrite lookup_app_l in Hx, Hy by lia.
    apply (H r x y); now apply lookup_app_l_Some.
  - destruct (decide (S r = length ls)) as [Heq|Hne].
    + rewrite lookup_app_l in Hx by lia.
      rewrite lookup_app_r in Hy by lia.
      replace (S r - length ls) with 0 in Hy by lia.
      injection Hy as <-.
      assert (Hb : (ls ++ [b]) !! S r = Some b).
      { rewrite lookup_app_r by lia.
        now replace (S r - length ls) with 0 by lia. }
      pose proof (H r x b (lookup_app_l_Some _ _ _ _ Hx) Hb). lia.
    + rewrite lookup_ge_None_2 in Hy; [discriminate|].
      rewrite length_app. simpl. lia.
Qed.

(** A line may be added when its first token did not fit. *)
Lemma greedy_snoc (ls : list str) (a b : str) :
  greedy width (ls ++ [a]) ->
  (width < Z.of_nat (length a + 1 + length (first_token b)))%Z ->
  greedy width ((ls ++ [a]) ++ [b]).
Proof.
  intros H Hab r x y Hx Hy.
  assert (Hlen : length (ls ++ [a]) = length ls + 1)
    by (rewrite length_app; reflexivity).
  destruct (decide (S r < length (ls ++ [a]))) as [Hlt|Hge].
  - rewrite lookup_app_l in Hx, Hy by lia. now apply (H r x y).
  - destruct (decide (S r = length (ls ++ [a]))) as [Heq|Hne].
    + rewrite lookup_app_l in Hx by lia.
      rewrite lookup_app_r in Hx by lia.
      replace (r - length ls) with 0 in Hx by lia.
      rewrite lookup_app_r in Hy by lia.
      replace (S r - length (ls ++ [a])) with 0 in Hy by lia.
      injection Hx as <-. injection Hy as <-. exact Hab.
    + rewrite lookup_ge_None_2 in Hy; [discriminate|].
      rewrite length_app. simpl. lia.
Qed.

Lemma greedy_inv_init : greedy_inv width layout_init.
Proof.
  split; [|reflexivity]. intros r a b _ Hb. simpl in Hb.
  now rewrite lookup_nil in Hb.
Qed.

Lemma greedy_inv_word (st : layout_state) (word : str) :
  Forall (fun c => c <> space) word ->
  greedy_inv width st ->
  greedy_inv width (layout_word width st word).
Proof.
  intros Hw (Hg & Hc).
  destruct (layout_word_cases width st word)
    as [(H0 & ->) | [(Hpos & Hwd & ->) | (Hpos & Hwd & ->)]];
    rewrite put_chars_eq; unfold greedy_inv; simpl.
  - split; [|rewrite length_app; lia].
    apply (greedy_last _ (current_line st)); [exact Hg|].
    destruct (current_line st); simpl in *; [|lia].
    unfold first_token. simpl. lia.
  - split; [|reflexivity].
    apply greedy_snoc; [exact Hg|].
    rewrite first_token_spaceless by exact Hw. rewrite <- Hc. exact Hwd.
  - split; [|rewrite !length_app; simpl; lia].
    apply (greedy_last _ (current_line st)); [exact Hg|].
    rewrite <- app_assoc. simpl. now rewrite first_token_app.
Qed.

Lemma greedy_inv_loop (words : list str) :
  Forall (Forall (fun c => c <> space)) words ->
  greedy_inv width (layout_loop width words layout_init).
Proof.
  induction words as [|word words IH] using rev_ind; intros Hws.
  - apply greedy_inv_init.
  - apply Forall_app in Hws as [Hws Hw]. inversion Hw; subst.
    rewrite layout_loop_snoc. apply greedy_inv_word; auto.
Qed.
End Greedy.

Lemma split_on_spaceless_tokens (s : str) :
  Forall (Forall (fun c => c <> space)) (split_on space s).
Proof.
  apply Forall_forall. intros w Hw. apply Forall_forall. intros c Hc.
  apply list_elem_of_In in Hw, Hc.
  now destruct (split_on_chars s w c Hw Hc).
Qed.

(** X15. The layout wraps greedily: whatever the text and the width, for
    two consecutive lines that it returns, the first token of the second
    line did not fit behind a space at the end of the first,
    [width < len(a) + 1 + len(first token of b)]. A line is broken only
    where the next token would pass the width. *)
Theorem layout_wraps_greedily (text : str) (width : Z) (r : nat) (a b : str) :
  (_layout_prompt text width).1 !! r = Some a ->
  (_layout_prompt text width).1 !! S r = Some b ->
  (width < Z.of_nat (length a + 1 + length (first_token b)))%Z.
Proof.
  rewrite layout_prompt_lines.
  destruct (greedy_inv_loop width (split_on space text)
              (split_on_spaceless_tokens text)) as [Hg _].
  unfold output_lines.
  destruct (nonempty _ || negb _); [apply Hg|].
  apply (greedy_prefix _ _ _ Hg).
Qed.

Lemma layout_wraps_greedily_witness :
  (20 < Z.of_nat (length (lit "import return lambda") + 1
                  + length (first_token (lit "async"))))%Z.
Proof.
  apply (layout_wraps_greedily (lit "import return lambda async") 20 0);
    reflexivity.
Defined.

(** ** The prompt generator *)

Lemma split_on_app_space (w rest : str) :
  Forall (fun c => c <> space) w ->
  split_on space (w ++ space :: rest) = w :: split_on space rest.
Proof.
  induction 1 as [|c w Hc Hw IH]; [reflexivity|].
  change ((c :: w) ++ space :: rest) with (c :: (w ++ space :: rest)).
  simpl. destruct (Ascii.eqb_spec c space) as [->|_]; [now destruct Hc|].
  now rewrite IH.
Qed.

(** Splitting on the space undoes joining with it, for words that hold
    none. *)
Lemma split_on_join (ws : list str) :
  ws <> [] ->
  Forall (Forall (fun c => c <> space)) ws ->
  split_on space (join [space] ws) = ws.
Proof.
  induction ws as [|w ws IH]; intros Hne Hws; [congruence|].
  inversion Hws as [|? ? Hw Hws']; subst.
  destruct ws as [|w' ws].
  - now apply split_on_spaceless.
  - rewrite join_cons by discriminate.
    rewrite split_on_app_space by exact Hw.
    now rewrite IH.
Qed.

Lemma choices_Some (pick : nat -> nat) (population : list str) (k : nat) :
  (forall i, pick i < length population) ->
  exists picked,
    choices pick population k = Some picked
    /\ length picked = k
    /\ forall i, i < k -> picked !! i = population !! pick i.
Proof.
  intros Hpick. unfold choices.
  destruct (mapM_is_Some_2 (fun i => population !! pick i) (seq 0 k))
    as [picked Hp].
  { apply Forall_forall. intros i _. apply lookup_lt_is_Some_2, Hpick. }
  exists picked. split; [exact Hp|]. split.
  - apply length_mapM in Hp. now rewrite length_seq in Hp.
  - intros i Hi. apply mapM_Some_1 in Hp.
    destruct (Forall2_lookup_l _ _ _ i i Hp) as (w & Hw & Hpw).
    + now rewrite lookup_seq_lt.
    + congruence.
Qed.


